(** * Schelling segregation model: the simulation engine of [main.py]

    A shallow embedding of the classes [Agent] and [City] and of the
    functions that drive a simulation run, followed by the properties of
    the engine.

    Modelling conventions.
    - Python integers are [Z]; grid coordinates are pairs of [Z].
    - The three rates of a city are Python floats.  A finite float is the
      rational [Q] that it denotes, and a float operation returns the
      float nearest to its exact result, [round64] (binary64, ties to the
      even mantissa); a result beyond the largest float is the infinity,
      on which [int(...)] raises.  [int(...)] is truncation toward zero.
      A float that the program text writes as a decimal, such as [0.58],
      is the float nearest to the decimal, [float_literal (58 # 100)].
      The infinities and nan as values of a rate are outside the model.
      The segregation level is kept as the exact quotient of its two
      counters, of which the float that the program returns is the
      rounding.
    - [None] in a grid cell is [None : option Agent].
    - The numpy array [self.grid] is a list of rows.  Indexing follows
      numpy: an index [i] is valid for a dimension [n] when [-n <= i < n],
      a negative index counts from the end, anything else raises
      [IndexError].  A raised exception is the result [None] of the
      [option] monad.
    - The process-wide random generator is an explicit list of draws that
      the random operations consume front to back ([0] when it runs out):
      [random.choice(seq)] is [seq[r mod len(seq)]] for the next draw [r].
    - Plotting ([ax.imshow], [plt.pause], [plt.show]) is left out; the
      array that [visualize] builds for it is [grid_numeric]. *)

From Stdlib Require Import ZArith QArith Qround Qpower Qabs Lia.
From Stdlib Require Import Lqa Ascii.
From stdpp Require Import base gmap sets list strings.

Open Scope Z_scope.

(** ** Data model *)

(** [class Agent]: a type tag, ['R'] or ['B'] in the program. *)
Record Agent := mkAgent { type : string }.

#[global] Instance Agent_eq_dec : EqDecision Agent.
Proof. solve_decision. Defined.

Abbreviation cell := (option Agent).
Abbreviation coord := (Z * Z)%type.
Abbreviation rng := (list nat).

(** [class City]: the attributes set by [__init__]. *)
Record City := mkCity {
  width : Z;
  height : Z;
  occupation_percentage : Q;
  discr_attr_percentage : Q;
  discrimination_rate : Q;
  grid : list (list cell);
  moved_agents : gset coord
}.

Definition set_grid (c : City) (g : list (list cell)) : City :=
  mkCity (width c) (height c) (occupation_percentage c)
         (discr_attr_percentage c) (discrimination_rate c) g (moved_agents c).

Definition set_moved_agents (c : City) (m : gset coord) : City :=
  mkCity (width c) (height c) (occupation_percentage c)
         (discr_attr_percentage c) (discrimination_rate c) (grid c) m.

(** ** numpy indexing *)

(** Index [i] into a dimension of size [n]. *)
Definition np_index (n : nat) (i : Z) : option nat :=
  if bool_decide (0 ≤ i < Z.of_nat n) then Some (Z.to_nat i)
  else if bool_decide (- Z.of_nat n ≤ i < 0) then Some (Z.to_nat (i + Z.of_nat n))
  else None.

(** [grid[x, y]] *)
Definition grid_get (g : list (list cell)) (x y : Z) : option cell :=
  i ← np_index (length g) x;
  row ← g !! i;
  j ← np_index (length row) y;
  row !! j.

(** [grid[x, y] = v] *)
Definition grid_set (g : list (list cell)) (x y : Z) (v : cell)
  : option (list (list cell)) :=
  i ← np_index (length g) x;
  row ← g !! i;
  j ← np_index (length row) y;
  Some (<[i := <[j := v]> row]> g).

(** [range(n)] *)
Definition range (n : Z) : list Z := seqZ 0 n.

(** [for i in range(self.height) for j in range(self.width)] *)
Definition coords (c : City) : list coord :=
  i ← range (height c); j ← range (width c); [(i, j)].

(** A list comprehension with a condition that may raise. *)
Fixpoint filterM {A} (p : A → option bool) (l : list A) : option (list A) :=
  match l with
  | [] => Some []
  | a :: l' =>
      b ← p a;
      r ← filterM p l';
      Some (if b : bool then a :: r else r)
  end.

(** [random.choice(seq)] *)
Definition random_choice {A} (l : list A) (rs : rng) : option (A * rng) :=
  a ← l !! (hd 0%nat rs mod length l)%nat;
  Some (a, tl rs).

(** [random.shuffle(x)] as the Python library does it: for [i] from
    [len(x) - 1] down to [1], exchange [x[i]] with [x[j]] for a random
    [j <= i]. *)
Definition swap {A} (x : list A) (i j : nat) : list A :=
  match x !! i, x !! j with
  | Some a, Some b => <[j := a]> (<[i := b]> x)
  | _, _ => x
  end.

Fixpoint shuffle_loop {A} (indices : list nat) (x : list A) (rs : rng)
  : list A * rng :=
  match indices with
  | [] => (x, rs)
  | i :: rest => shuffle_loop rest (swap x i (hd 0%nat rs mod (i + 1))%nat) (tl rs)
  end.

Definition random_shuffle {A} (x : list A) (rs : rng) : list A * rng :=
  shuffle_loop (reverse (seq 1 (length x - 1))) x rs.

(** ** Binary64 arithmetic *)

(** Rounding to the nearest integer, a tie going to the even one. *)
Definition round_half_even (y : Q) : Z :=
  let f := Qfloor y in
  match 2 * (Qnum y `mod` Z.pos (Qden y)) ?= Z.pos (Qden y) with
  | Lt => f
  | Gt => f + 1
  | Eq => if Z.even f then f else f + 1
  end.

Definition pow2 (k : Z) : Q := (2 ^ k)%Q.

(** The exponent [e] with [2 ** e <= x < 2 ** (e + 1)], for [x > 0]. *)
Definition binade (x : Q) : Z :=
  let e := Z.log2 (Qnum x) - Z.log2 (Z.pos (Qden x)) in
  if Qle_bool (pow2 e) x then e else e - 1.

(** The exponent of the last bit of a float next to [x > 0]: a mantissa
    of 53 bits, and no exponent below that of the subnormal numbers. *)
Definition ulp_exponent (x : Q) : Z := Z.max (binade x - 52) (-1074).

Definition round_pos (x : Q) : Q :=
  let q := ulp_exponent x in
  (inject_Z (round_half_even (x / pow2 q)) * pow2 q)%Q.

(** The float nearest to [x], a tie going to the even mantissa, as long
    as the exponent does not overflow. *)
Definition round64 (x : Q) : Q :=
  match Qnum x with
  | Z0 => 0%Q
  | Zpos _ => round_pos x
  | Zneg _ => (- round_pos (- x))%Q
  end.

(** The rounding of [x] is beyond the largest float, [2 ** 1024] or more
    in magnitude: the float is an infinity. *)
Definition overflows (x : Q) : bool :=
  Qle_bool (pow2 1024) (Qabs (round64 x)).

(** The float result of an operation whose exact result is [x]; [None]
    is an infinity. *)
Definition to_float (x : Q) : option Q :=
  if overflows x then None else Some (round64 x).

(** A float literal of the program text: the float nearest to the decimal
    that is written. *)
Definition float_literal (x : Q) : Q := round64 x.

(** The number [x] is a float, the range of the exponent aside. *)
Definition is_float (x : Q) : Prop := (round64 x == x)%Q.

(** [n * x] for an integer [n] and a rate [x]: [n] is converted to a
    float, which raises [OverflowError] when [n] is too large, and the
    two floats are multiplied.  The rate enters as the float it denotes,
    which is [x] itself when [x] is a float.  The result [None] is that
    exception or an infinite product, on which the [int(...)] around the
    product raises [OverflowError]. *)
Definition int_times_float (n : Z) (x : Q) : option Q :=
  a ← to_float (inject_Z n);
  to_float (a * round64 x).

(** [similar / total] for two integers and [total > 0]: the quotient
    correctly rounded, at most [1] here. *)
Definition int_div (similar total : nat) : Q :=
  round64 (Z.of_nat similar # Pos.of_nat total).

(** [int(q)] for a finite float [q]: truncation toward zero. *)
Definition py_int (q : Q) : Z := Z.quot (Qnum q) (Z.pos (Qden q)).

(** [[a] * n]: the empty list when [n <= 0]. *)
Definition py_repeat {A} (a : A) (n : Z) : list A := replicate (Z.to_nat n) a.

(** [l.pop()]: the last element, [IndexError] on the empty list. *)
Definition py_pop {A} (l : list A) : option (A * list A) :=
  match reverse l with
  | [] => None
  | a :: r => Some (a, reverse r)
  end.

(** [np.full((h, w), None)]: [ValueError] on a negative dimension. *)
Definition np_full (h w : Z) : option (list (list cell)) :=
  if bool_decide (0 ≤ h ∧ 0 ≤ w)
  then Some (replicate (Z.to_nat h) (replicate (Z.to_nat w) None))
  else None.

(** ** [City.initialize_grid] *)

Definition total_cells (c : City) : Z := width c * height c.

(** [int(total_cells * self.occupation_percentage)] *)
Definition occupied_cells (c : City) : option Z :=
  py_int <$> int_times_float (total_cells c) (occupation_percentage c).

(** [int(occupied_cells * self.discr_attr_percentage)] *)
Definition red_agents (c : City) : option Z :=
  occupied ← occupied_cells c;
  py_int <$> int_times_float occupied (discr_attr_percentage c).

Definition blue_agents (c : City) : option Z :=
  occupied ← occupied_cells c;
  red ← red_agents c;
  Some (occupied - red).

(** The local [vacant_cells] of [initialize_grid]. *)
Definition vacant_count (c : City) : option Z :=
  occupied ← occupied_cells c;
  Some (total_cells c - occupied).

(** [[Agent('R')] * red_agents + [Agent('B')] * blue_agents
     + [None] * vacant_cells] *)
Definition initial_agents (c : City) : option (list cell) :=
  red ← red_agents c;
  blue ← blue_agents c;
  vacant ← vacant_count c;
  Some (py_repeat (Some (mkAgent "R")) red
        ++ py_repeat (Some (mkAgent "B")) blue
        ++ py_repeat None vacant).

(** [for i in range(height): for j in range(width):
       self.grid[i, j] = agents.pop()] *)
Fixpoint fill_loop (ps : list coord) (g : list (list cell)) (agents : list cell)
  : option (list (list cell) * list cell) :=
  match ps with
  | [] => Some (g, agents)
  | p :: ps' =>
      '(a, agents') ← py_pop agents;
      g' ← grid_set g p.1 p.2 a;
      fill_loop ps' g' agents'
  end.

Definition initialize_grid (c : City) (rs : rng) : option (City * rng) :=
  agents ← initial_agents c;
  let '(agents, rs') := random_shuffle agents rs in
  '(g, _) ← fill_loop (coords c) (grid c) agents;
  Some (set_grid c g, rs').

(** [City.__init__] *)
Definition City_init (width height : Z)
    (occupation_percentage discr_attr_percentage discrimination_rate : Q)
    (rs : rng) : option (City * rng) :=
  g ← np_full height width;
  initialize_grid
    (mkCity width height occupation_percentage discr_attr_percentage
            discrimination_rate g ∅) rs.

(** ** [City.get_neighbors] *)

Definition directions : list (Z * Z) :=
  [(-1, 0); (1, 0); (0, -1); (0, 1);
   (-1, -1); (-1, 1); (1, -1); (1, 1)].

Fixpoint neighbors_loop (c : City) (x y : Z) (dirs : list (Z * Z))
  : option (list cell) :=
  match dirs with
  | [] => Some []
  | (dx, dy) :: rest =>
      let nx := x + dx in
      let ny := y + dy in
      if bool_decide ((0 ≤ nx < height c) ∧ (0 ≤ ny < width c)) then
        v ← grid_get (grid c) nx ny;
        vs ← neighbors_loop c x y rest;
        Some (v :: vs)
      else neighbors_loop c x y rest
  end.

Definition get_neighbors (c : City) (x y : Z) : option (list cell) :=
  neighbors_loop c x y directions.

(** ** [City.is_happy] *)

(** [neighbor and neighbor.type == agent.type] *)
Definition same_type (a : Agent) (n : cell) : bool :=
  match n with
  | Some b => bool_decide (type b = type a)
  | None => false
  end.

(** [if neighbor] *)
Definition occupied (n : cell) : bool :=
  match n with Some _ => true | None => false end.

Definition count {A} (p : A → bool) (l : list A) : nat :=
  length (filter (λ a, p a = true) l).

(** The exact quotient of two counters, for [total > 0]. *)
Definition ratio (similar total : nat) : Q :=
  Z.of_nat similar # Pos.of_nat total.

(** The float quotient is compared with the rate as the city stores it:
    a city built from the program text stores a [float_literal]. *)
Definition is_happy (c : City) (x y : Z) : option bool :=
  agent ← grid_get (grid c) x y;
  match agent with
  | None => Some true
  | Some a =>
      neighbors ← get_neighbors c x y;
      let similar := count (same_type a) neighbors in
      let total := count occupied neighbors in
      if (total =? 0)%nat then Some true
      else Some (Qle_bool (discrimination_rate c) (int_div similar total))
  end.

(** ** [City.relocate_agent] *)

(** [[(i, j) for i in range(height) for j in range(width)
      if self.grid[i, j] is None]] *)
Definition vacant_cells (c : City) : option (list coord) :=
  filterM (λ p, v ← grid_get (grid c) p.1 p.2; Some (negb (occupied v)))
          (coords c).

Definition relocate_agent (c : City) (x y : Z) (rs : rng)
  : option (City * rng) :=
  vacant ← vacant_cells c;
  match vacant with
  | [] => Some (c, rs)
  | _ :: _ =>
      '(new, rs') ← random_choice vacant rs;
      let moved := {[ (x, y) ]} ∪ moved_agents c in
      a ← grid_get (grid c) x y;
      g1 ← grid_set (grid c) new.1 new.2 a;
      g2 ← grid_set g1 x y None;
      Some (set_moved_agents (set_grid c g2) moved, rs')
  end.

(** ** [City.calculate_segregation] *)

(** One pass of the body of the double loop on the counters
    [(total_agents, happy_agents)]. *)
Definition segregation_body (c : City) (acc : nat * nat) (p : coord)
  : option (nat * nat) :=
  v ← grid_get (grid c) p.1 p.2;
  match v with
  | None => Some acc
  | Some _ =>
      h ← is_happy c p.1 p.2;
      Some (S acc.1, if h : bool then S acc.2 else acc.2)
  end.

Fixpoint segregation_loop (c : City) (acc : nat * nat) (ps : list coord)
  : option (nat * nat) :=
  match ps with
  | [] => Some acc
  | p :: ps' => acc' ← segregation_body c acc p; segregation_loop c acc' ps'
  end.

Definition calculate_segregation (c : City) : option Q :=
  '(total_agents, happy_agents) ← segregation_loop c (0%nat, 0%nat) (coords c);
  Some (if (0 <? total_agents)%nat then ratio happy_agents total_agents else 1%Q).

(** ** [City.run_simulation] *)

(** [[(i, j) for i in range(height) for j in range(width)
      if self.grid[i, j] is not None and not self.is_happy(i, j)]] *)
Definition unhappy_agents (c : City) : option (list coord) :=
  filterM (λ p, v ← grid_get (grid c) p.1 p.2;
                match v with
                | None => Some false
                | Some _ => h ← is_happy c p.1 p.2; Some (negb h)
                end)
          (coords c).

(** [for x, y in unhappy_agents: self.relocate_agent(x, y)] *)
Fixpoint relocate_each (ps : list coord) (c : City) (rs : rng)
  : option (City * rng) :=
  match ps with
  | [] => Some (c, rs)
  | p :: ps' =>
      '(c', rs') ← relocate_agent c p.1 p.2 rs;
      relocate_each ps' c' rs'
  end.

(** How the [for] loop of [run_simulation] was left: by [break] when a
    scan found no unhappy agent, or by exhausting
    [range(max_iterations)]. *)
Inductive outcome := Converged | BudgetExhausted.

#[global] Instance outcome_eq_dec : EqDecision outcome.
Proof. solve_decision. Defined.

(** The result of a run: how the loop ended, how many times its body was
    entered, the city and the generator it leaves behind. *)
Record run_result := mkRun {
  run_outcome : outcome;
  run_iterations : nat;
  run_city : City;
  run_rng : rng
}.

(** One pass through the body of the loop: the scan for unhappy agents,
    then either [break] (the result [None]) or the relocation of every
    coordinate of the scan. *)
Definition sweep (c : City) (rs : rng) : option (option (City * rng)) :=
  unhappy ← unhappy_agents c;
  match unhappy with
  | [] => Some None
  | _ :: _ => cr ← relocate_each unhappy c rs; Some (Some cr)
  end.

(** The [for iteration in range(max_iterations)] loop; [passes] counts the
    passes through the body so far. *)
Fixpoint simulation_loop (iters : list Z) (passes : nat) (c : City) (rs : rng)
  : option run_result :=
  match iters with
  | [] => Some (mkRun BudgetExhausted passes c rs)
  | _ :: rest =>
      s ← sweep c rs;
      match s with
      | None => Some (mkRun Converged (S passes) c rs)
      | Some (c', rs') => simulation_loop rest (S passes) c' rs'
      end
  end.

Definition run_simulation (c : City) (max_iterations : Z) (rs : rng)
  : option run_result :=
  simulation_loop (range max_iterations) 0%nat c rs.

(** ** Reading and counting cells *)

(** The array has [h] rows of [w] cells: the shape [(height, width)] that
    [np.full] gives it. *)
Definition shape (g : list (list cell)) (h w : Z) : Prop :=
  Z.of_nat (length g) = h ∧ Forall (λ row, Z.of_nat (length row) = w) g.

Definition well_formed (c : City) : Prop :=
  shape (grid c) (height c) (width c).

Definition in_bounds (c : City) (p : coord) : Prop :=
  (0 ≤ p.1 < height c) ∧ (0 ≤ p.2 < width c).

(** [self.grid[p]] *)
Definition read (c : City) (p : coord) : option cell :=
  grid_get (grid c) p.1 p.2.

(** The cell at [p] can be read and satisfies [P]. *)
Definition holds (P : cell → bool) (c : City) (p : coord) : bool :=
  match read c p with
  | Some v => P v
  | None => false
  end.

(** [sum(1 for i in range(height) for j in range(width) if P(grid[i, j]))],
    the way the test suite counts cells. *)
Definition count_cells (P : cell → bool) (c : City) : nat :=
  count (holds P c) (coords c).

Definition vacant (n : cell) : bool := negb (occupied n).

(** [n and n.type == t] *)
Definition has_type (t : string) (n : cell) : bool :=
  match n with
  | Some b => bool_decide (type b = t)
  | None => false
  end.

(** The cell at [p] holds an agent that [is_happy] finds unhappy. *)
Definition unhappy_at (c : City) (p : coord) : bool :=
  match read c p with
  | Some (Some _) =>
      match is_happy c p.1 p.2 with
      | Some false => true
      | _ => false
      end
  | _ => false
  end.

Definition b2n (b : bool) : nat := if b then 1%nat else 0%nat.

(** Two cities with the same dimensions and rates. *)
Definition same_config (c c' : City) : Prop :=
  width c' = width c ∧ height c' = height c ∧
  occupation_percentage c' = occupation_percentage c ∧
  discr_attr_percentage c' = discr_attr_percentage c ∧
  discrimination_rate c' = discrimination_rate c.

#[global] Instance in_bounds_dec c p : Decision (in_bounds c p).
Proof. unfold in_bounds. apply _. Defined.

(** ** The satisfaction rule in the words of the specification *)

(** The row and column offsets [{-1,0,1} x {-1,0,1}] without [(0,0)]. *)
Definition offsets_spec : list (Z * Z) :=
  filter (λ d, d ≠ (0, 0)) (dx ← [-1; 0; 1]; dy ← [-1; 0; 1]; [(dx, dy)]).

(** The neighbour cells of [(x, y)]: the cells at these offsets, clipped to
    the grid. *)
Definition neighbor_coords_spec (c : City) (x y : Z) : list coord :=
  filter (in_bounds c) ((λ d, (x + d.1, y + d.2)) <$> offsets_spec).

(** The cell at [q] holds an agent of the category of [a]. *)
Definition same_category_at (c : City) (a : Agent) (q : coord) : Prop :=
  ∃ b, read c q = Some (Some b) ∧ type b = type a.

(** The cell at [q] holds an agent. *)
Definition occupied_at (c : City) (q : coord) : Prop :=
  ∃ b, read c q = Some (Some b).

#[global] Instance same_category_at_dec c a q : Decision (same_category_at c a q).
Proof.
  unfold same_category_at. destruct (read c q) as [[b|]|].
  - destruct (decide (type b = type a)) as [E|E].
    + left. by exists b.
    + right. intros (b' & [= <-] & ?). done.
  - right. by intros (b' & [=] & ?).
  - right. by intros (b' & [=] & ?).
Defined.

#[global] Instance occupied_at_dec c q : Decision (occupied_at c q).
Proof.
  unfold occupied_at. destruct (read c q) as [[b|]|].
  - left. by exists b.
  - right. by intros (b' & [=]).
  - right. by intros (b' & [=]).
Defined.

(** The number of neighbour cells occupied by an agent of the category of
    [a]. *)
Definition similar_spec (c : City) (a : Agent) (x y : Z) : nat :=
  length (filter (same_category_at c a) (neighbor_coords_spec c x y)).

(** The number of neighbour cells that are occupied. *)
Definition occupied_neighbors_spec (c : City) (x y : Z) : nat :=
  length (filter (occupied_at c) (neighbor_coords_spec c x y)).

(** ** The segregation level in the words of the specification *)

(** The cell at [p] holds an agent and [is_happy] finds it satisfied. *)
Definition happy_at (c : City) (p : coord) : bool :=
  holds occupied c p &&
  match is_happy c p.1 p.2 with
  | Some true => true
  | _ => false
  end.

Definition total_occupied_spec (c : City) : nat := count_cells occupied c.

Definition happy_count_spec (c : City) : nat := count (happy_at c) (coords c).

(** ** Example cities *)

(** The rates of a city are floats: a rate that the program text writes
    as a decimal is the [float_literal] of that decimal. *)

Definition red : cell := Some (mkAgent "R").
Definition blue : cell := Some (mkAgent "B").

(** One row, a red and a blue agent side by side and two vacant cells;
    every agent wants all its neighbours to be of its own type. *)
Definition city_line : City :=
  mkCity 4 1 (1 # 2) (1 # 2) 1 [[red; blue; None; None]] ∅.

(** One row without a vacant cell. *)
Definition city_full : City :=
  mkCity 2 1 1 (1 # 2) 1 [[red; blue]] ∅.


(** The grids of the test suite: five rows of five cells, the two top rows
    red and the others blue; and a checkerboard. *)
Definition city_split : City :=
  mkCity 5 5 (float_literal (8 # 10)) (1 # 2) (float_literal (4 # 10))
    [[red; red; red; red; red];
     [red; red; red; red; red];
     [blue; blue; blue; blue; blue];
     [blue; blue; blue; blue; blue];
     [blue; blue; blue; blue; blue]] ∅.

Definition city_checker : City :=
  mkCity 5 5 (float_literal (8 # 10)) (1 # 2) (float_literal (4 # 10))
    [[red; blue; red; blue; red];
     [blue; red; blue; red; blue];
     [red; blue; red; blue; red];
     [blue; red; blue; red; blue];
     [red; blue; red; blue; red]] ∅.

(** An agent with one neighbour of its type among two, at a given rate. *)
Definition city_three (rate : Q) : City :=
  mkCity 3 3 (float_literal (1 # 3)) (float_literal (2 # 3)) rate
    [[None; red; None];
     [None; red; None];
     [None; blue; None]] ∅.

(** [city_line] with one more agent, far from the first cell, and other
    rates for the occupation and the split. *)
Definition city_line_far : City :=
  mkCity 4 1 (3 # 4) (1 # 4) 1 [[red; blue; None; blue]] ∅.

(** An agent with five neighbours of its type among seven; the rate is
    the float [0.7142857142857143], which is the float quotient [5 / 7]
    and lies above the fraction five sevenths. *)
Definition city_boundary : City :=
  mkCity 3 3 1 (1 # 2) (float_literal (7142857142857143 # 10000000000000000))
    [[red; red; blue];
     [red; red; blue];
     [red; red; None]] ∅.

(** An agent on the upper edge with three neighbours of its type among
    five; the rate is the float [0.6], which is the float quotient
    [3 / 5] and lies below the fraction three fifths. *)
Definition city_edge : City :=
  mkCity 3 2 1 (1 # 2) (float_literal (6 # 10))
    [[red; red; blue];
     [red; red; blue]] ∅.

(** ** Further definitions *)

(** [city.discrimination_rate = rate], an assignment the test suite
    makes. *)
Definition set_discrimination_rate (c : City) (rate : Q) : City :=
  mkCity (width c) (height c) (occupation_percentage c)
         (discr_attr_percentage c) rate (grid c) (moved_agents c).

(** The coordinates [(nx, ny)] that pass the bounds check of
    [get_neighbors], in the order of [directions]. *)
Definition neighbor_coords (c : City) (x y : Z) : list coord :=
  filter (in_bounds c) ((λ d, (x + d.1, y + d.2)) <$> directions).

(** ** [City.visualize]: the numeric grid *)

(** [color_map = {'R': 1, 'B': 2, None: 0}]; a key is a type tag or
    [None]. *)
Definition color_map : gmap (option string) Z :=
  {[ Some "R" := 1; Some "B" := 2; None := 0 ]}.

(** [color_map[self.grid[i, j].type] if self.grid[i, j]
     else color_map[None]]; a missing key raises [KeyError]. *)
Definition cell_color (v : cell) : option Z :=
  match v with
  | Some a => color_map !! Some (type a)
  | None => color_map !! None
  end.

(** The array [grid_numeric] that [visualize] builds before it plots:
    [[[... for j in range(self.width)] for i in range(self.height)]]. *)
Definition grid_numeric (c : City) : option (list (list Z)) :=
  mapM (λ i, mapM (λ j, v ← grid_get (grid c) i j; cell_color v)
                  (range (width c)))
       (range (height c)).

(** A cell holding an agent whose type is neither ['R'] nor ['B']. *)
Definition unknown_type (v : cell) : bool :=
  match v with
  | Some a => negb (bool_decide (type a = "R") || bool_decide (type a = "B"))
  | None => false
  end.

(** ** [generate_random_parameters] *)

(** A value of the parameter dictionary: a Python [int] or [float]. *)
Inductive number :=
  | PyInt (n : Z)
  | PyFloat (q : Q).

(** [random.randint(a, b)]: [a + randbelow(b - a + 1)], [ValueError] on
    an empty range. *)
Definition randint (a b : Z) (rs : rng) : option (Z * rng) :=
  if bool_decide (a ≤ b)
  then Some (a + Z.of_nat (hd 0%nat rs) `mod` (b - a + 1), tl rs)
  else None.

(** [random.random()]: a multiple of [2 ** -53] in [[0, 1)]. *)
Definition random_random (rs : rng) : Q * rng :=
  (Z.of_nat (hd 0%nat rs) `mod` 9007199254740992 # 9007199254740992, tl rs).

(** [random.uniform(a, b)]: [a + (b - a) * random()], a float
    subtraction, a float product and a float sum, on the floats that [a]
    and [b] denote. *)
Definition uniform (a b : Q) (rs : rng) : Q * rng :=
  let '(u, rs') := random_random rs in
  let a := round64 a in
  let b := round64 b in
  (round64 (a + round64 (round64 (b - a) * u)), rs').

(** [round(x, 2)] for the float that [x] denotes: the decimal with two
    places nearest to that float, a tie going to the even one, and then
    the float nearest to that decimal. *)
Definition round2 (x : Q) : Q :=
  round64 (round_half_even (round64 x * 100) # 100).

Definition generate_random_parameters (rs : rng)
  : option (gmap string number * rng) :=
  '(w, rs) ← randint 10 50 rs;
  '(h, rs) ← randint 10 50 rs;
  let '(occ, rs) := uniform (5 # 10) 1 rs in
  let '(split, rs) := uniform (3 # 10) (7 # 10) rs in
  let '(rate, rs) := uniform (2 # 10) (8 # 10) rs in
  Some ({[ "width" := PyInt w;
           "height" := PyInt h;
           "occupation_percentage" := PyFloat (round2 occ);
           "discr_attr_percentage" := PyFloat (round2 split);
           "discrimination_rate" := PyFloat (round2 rate) ]}, rs).

(** ** [read_parameters_from_file] *)

(** Text is a string of characters with code points below 256.
    [c.isspace()] for such a character: the code points 9 to 13, 28 to
    32, 133 and 160. *)
Definition is_space (a : Ascii.ascii) : bool :=
  let n := Ascii.nat_of_ascii a in
  ((9 <=? n) && (n <=? 13) || (28 <=? n) && (n <=? 32)
   || (n =? 133) || (n =? 160))%nat.

(** [s.lstrip()] *)
Fixpoint lstrip (s : string) : string :=
  match s with
  | EmptyString => EmptyString
  | String a s' => if is_space a then lstrip s' else s
  end.

(** [s.rstrip()] *)
Fixpoint rstrip (s : string) : string :=
  match s with
  | EmptyString => EmptyString
  | String a s' =>
      match rstrip s' with
      | EmptyString => if is_space a then EmptyString else String a EmptyString
      | String b r => String a (String b r)
      end
  end.

(** [s.strip()] *)
Definition strip (s : string) : string := lstrip (rstrip s).

(** [s.split(sep)] for a separator of one character: never an empty
    list. *)
Fixpoint split (sep : Ascii.ascii) (s : string) : list string :=
  match s with
  | EmptyString => [EmptyString]
  | String a s' =>
      if Ascii.eqb a sep then EmptyString :: split sep s'
      else match split sep s' with
           | p :: ps => String a p :: ps
           | [] => [String a EmptyString]
           end
  end.

(** [c in s] *)
Fixpoint contains (c : Ascii.ascii) (s : string) : bool :=
  match s with
  | EmptyString => false
  | String a s' => Ascii.eqb a c || contains c s'
  end.

(** [s.count(c)] *)
Fixpoint count_char (c : Ascii.ascii) (s : string) : nat :=
  match s with
  | EmptyString => 0%nat
  | String a s' => ((if Ascii.eqb a c then 1 else 0) + count_char c s')%nat
  end.

Section read_parameters.

(** The conversions [int(s)] and [float(s)] of Python, [None] for their
    [ValueError]. *)
Variable int_of_string : string → option Z.
Variable float_of_string : string → option Q.

(** One pass through the body of the loop over the lines:
    [key, value = line.strip().split(':')], then
    [params[key.strip()] = float(value.strip()) if '.' in value.strip()
                           else int(value.strip())]. *)
Definition read_line (params : gmap string number) (line : string)
  : option (gmap string number) :=
  match split ":"%char (strip line) with
  | [key; value] =>
      n ← (if contains "."%char (strip value)
           then PyFloat <$> float_of_string (strip value)
           else PyInt <$> int_of_string (strip value));
      Some (<[strip key := n]> params)
  | _ => None
  end.

Fixpoint read_lines (params : gmap string number) (lines : list string)
  : option (gmap string number) :=
  match lines with
  | [] => Some params
  | line :: rest => params' ← read_line params line; read_lines params' rest
  end.

(** The file is the list of its lines, each with its line end, or
    [None] when it cannot be opened; every exception leaves as a
    [ValueError], the result [None]. *)
Definition read_parameters_from_file (file : option (list string))
  : option (gmap string number) :=
  lines ← file; read_lines ∅ lines.

End read_parameters.

(** A line made of whitespace only, such as an empty line of the file. *)
Fixpoint blank (s : string) : bool :=
  match s with
  | EmptyString => true
  | String a s' => is_space a && blank s'
  end.

(** The value that a line [key:value] stores: [float] of the stripped
    value when it has a dot, [int] of it otherwise. *)
Definition line_value (int_of_string : string → option Z)
    (float_of_string : string → option Q) (value : string) : option number :=
  if contains "."%char (strip value)
  then PyFloat <$> float_of_string (strip value)
  else PyInt <$> int_of_string (strip value).

(** A parameter file with an empty line between two entries. *)
Definition file_with_empty_line : list string :=
  [String.append "width: 20" (String "010"%char EmptyString);
   String "010"%char EmptyString;
   String.append "height: 20" (String "010"%char EmptyString)].

(** * The example cities *)

(** A literal grid has the shape its city announces. *)
Ltac literal_shape := split; [reflexivity | repeat constructor].

(** A literal coordinate lies on the grid of a literal city. *)
Ltac literal_bounds := split; simpl; lia.

Lemma well_formed_city_line : well_formed city_line.
Proof. literal_shape. Qed.

Lemma well_formed_city_full : well_formed city_full.
Proof. literal_shape. Qed.


(** ** The scenarios of the test suite *)

(** [test_get_neighbors]: eight neighbours in the middle, five on an edge,
    three in a corner. *)
Example get_neighbors_lengths :
  length <$> get_neighbors city_split 2 2 = Some 8%nat ∧
  length <$> get_neighbors city_split 0 2 = Some 5%nat ∧
  length <$> get_neighbors city_split 0 0 = Some 3%nat.
Proof. repeat split; reflexivity. Qed.

(** [test_is_happy]: one similar neighbour out of two satisfies an agent at
    rate [0.4] and not at rate [0.8]. *)
Example is_happy_rates :
  is_happy (city_three (float_literal (4 # 10))) 1 1 = Some true ∧
  is_happy (city_three (float_literal (8 # 10))) 1 1 = Some false.
Proof. split; vm_compute; reflexivity. Qed.

(** Three similar neighbours out of five satisfy an agent at rate [0.6]:
    the rate and the quotient are the same float, below three fifths. *)
Example is_happy_float_rate :
  is_happy city_edge 0 1 = Some true ∧
  (discrimination_rate city_edge < 6 # 10)%Q ∧
  (discrimination_rate city_edge == int_div 3 5)%Q.
Proof. repeat split; vm_compute; reflexivity. Qed.

(** [test_relocate_agent]: the source cell is vacant afterwards. *)
Example relocate_agent_vacates :
  ∃ c' rs', relocate_agent (city_three (float_literal (4 # 10))) 1 1 [4%nat]
            = Some (c', rs') ∧
            read c' (1, 1) = Some None.
Proof. do 2 eexists. split; reflexivity. Qed.

(** [test_calculate_segregation]: level [1] on the split grid, below [1] on
    the checkerboard, where the four corners are unhappy. *)
Example calculate_segregation_levels :
  calculate_segregation city_split = Some (25 # 25)%Q ∧
  calculate_segregation city_checker = Some (21 # 25)%Q.
Proof. split; vm_compute; reflexivity. Qed.

(** [test_initialize_grid]: ten red agents, ten blue agents and five vacant
    cells, here for one sequence of draws. *)
Example initialize_grid_example :
  (λ cr, (count_cells (has_type "R") cr.1, count_cells (has_type "B") cr.1,
          count_cells vacant cr.1))
    <$> City_init 5 5 (float_literal (8 # 10)) (1 # 2) (float_literal (4 # 10))
          [3; 1; 4; 1; 5; 9; 2; 6]%nat
  = Some (10, 10, 5)%nat.
Proof. vm_compute. reflexivity. Qed.

(** ** Floats of the program *)

(** The float [0.1]; the float quotient [5 / 7]; the products
    [50 * 0.58], [10 * 0.7] and [90 * 0.7] under [int(...)], of which the
    first and the last fall below the integers [29] and [63]; the rounding
    [round(0.325, 2)], which is [0.33] because the float [0.325] lies
    above the decimal; a conversion that overflows. *)
Example float_values :
  (float_literal (1 # 10) == 3602879701896397 # 36028797018963968)%Q ∧
  (int_div 5 7 == 6433713753386423 # 9007199254740992)%Q ∧
  py_int <$> int_times_float 50 (float_literal (58 # 100)) = Some 28 ∧
  py_int <$> int_times_float 10 (float_literal (7 # 10)) = Some 7 ∧
  py_int <$> int_times_float 90 (float_literal (7 # 10)) = Some 62 ∧
  (round2 (float_literal (325 # 1000)) == float_literal (33 # 100))%Q ∧
  to_float (inject_Z (2 ^ 1024)) = None.
Proof. repeat split; vm_compute; reflexivity. Qed.

(** * Binary64 rounding *)

(** ** Rounding to an integer *)

Lemma round_half_even_ge n y : (inject_Z n <= y)%Q → n ≤ round_half_even y.
Proof.
  intros H.
  assert (n ≤ Qfloor y) by (apply Qfloor_resp_le in H; by rewrite Qfloor_Z in H).
  unfold round_half_even. repeat case_match; lia.
Qed.

Lemma round_half_even_le n y : (y <= inject_Z n)%Q → round_half_even y ≤ n.
Proof.
  destruct y as [a b]. unfold Qle. simpl. intros H.
  unfold round_half_even, Qfloor. simpl.
  pose proof (Z.div_mod a (Z.pos b) ltac:(lia)).
  pose proof (Z.mod_pos_bound a (Z.pos b) ltac:(lia)).
  destruct (Z.compare_spec (2 * (a `mod` Z.pos b)) (Z.pos b)); [case_match|..]; nia.
Qed.

Lemma round_half_even_mono x y :
  (x <= y)%Q → round_half_even x ≤ round_half_even y.
Proof.
  destruct x as [a b], y as [a' b']. unfold Qle. simpl. intros H.
  unfold round_half_even, Qfloor. simpl.
  pose proof (Z.div_mod a (Z.pos b) ltac:(lia)).
  pose proof (Z.mod_pos_bound a (Z.pos b) ltac:(lia)).
  pose proof (Z.div_mod a' (Z.pos b') ltac:(lia)).
  pose proof (Z.mod_pos_bound a' (Z.pos b') ltac:(lia)).
  set (f := a `div` Z.pos b) in *. set (f' := a' `div` Z.pos b') in *.
  set (r := a `mod` Z.pos b) in *. set (r' := a' `mod` Z.pos b') in *.
  assert (f ≤ f') as Hf.
  { destruct (Z_lt_le_dec f' f) as [Hlt|]; [exfalso|done].
    assert (Z.pos b * (f' + 1) ≤ Z.pos b * f) by nia.
    assert (Z.pos b' * (Z.pos b * (f' + 1)) ≤ Z.pos b' * (Z.pos b * f)) by nia.
    nia. }
  destruct (decide (f = f')) as [<-|].
  - assert (r * Z.pos b' ≤ r' * Z.pos b) by nia.
    destruct (Z.compare_spec (2 * r) (Z.pos b)), (Z.compare_spec (2 * r') (Z.pos b'));
      repeat case_match; try lia; nia.
  - destruct (Z.compare_spec (2 * r) (Z.pos b)), (Z.compare_spec (2 * r') (Z.pos b'));
      repeat case_match; lia.
Qed.

(** ** Powers of two and binades *)

Lemma pow2_pos k : (0 < pow2 k)%Q.
Proof. by apply Qpower_0_lt. Qed.

Lemma pow2_add a b : (pow2 (a + b) == pow2 a * pow2 b)%Q.
Proof. by apply Qpower_plus. Qed.

Lemma pow2_le a b : a ≤ b → (pow2 a <= pow2 b)%Q.
Proof. intros. by apply Qpower_le_compat_l. Qed.

Lemma pow2_int k : 0 ≤ k → (pow2 k == inject_Z (2 ^ k))%Q.
Proof. intros. unfold pow2. by rewrite Zpower_Qpower. Qed.

Lemma pow2_sub a b : (pow2 (a - b) == pow2 a / pow2 b)%Q.
Proof. by apply Qpower_minus. Qed.

Lemma log2_pow2_bounds n :
  0 < n →
  (pow2 (Z.log2 n) <= inject_Z n)%Q ∧ (inject_Z n < pow2 (Z.log2 n + 1))%Q.
Proof.
  intros Hn. pose proof (Z.log2_spec n Hn) as [H1 H2].
  pose proof (Z.log2_nonneg n).
  rewrite !pow2_int by lia. split.
  - by rewrite <- Zle_Qle.
  - rewrite <- Zlt_Qlt. by rewrite <- Z.add_1_r in H2.
Qed.

(** [binade x] is the exponent of the power of two at or just below
    [x]. *)
Lemma binade_spec x :
  (0 < x)%Q → (pow2 (binade x) <= x)%Q ∧ (x < pow2 (binade x + 1))%Q.
Proof.
  intros Hx. destruct x as [a b].
  assert (0 < a) as Ha by (unfold Qlt in Hx; simpl in Hx; lia).
  pose proof (log2_pow2_bounds a Ha) as [Ha1 Ha2].
  pose proof (log2_pow2_bounds (Z.pos b) ltac:(lia)) as [Hb1 Hb2].
  set (la := Z.log2 a) in *. set (lb := Z.log2 (Z.pos b)) in *.
  assert ((a # b) == inject_Z a / inject_Z (Z.pos b))%Q as Hab by apply Qmake_Qdiv.
  pose proof (pow2_pos la). pose proof (pow2_pos lb).
  pose proof (pow2_pos (la + 1)). pose proof (pow2_pos (lb + 1)).
  assert (0 < inject_Z (Z.pos b))%Q as Hbp by (by rewrite <- (Zlt_Qlt 0)).
  assert (a # b < pow2 (la - lb + 1))%Q as Hup.
  { replace (la - lb + 1) with (la + 1 - lb) by lia.
    rewrite pow2_sub, Hab.
    apply Qlt_shift_div_l; [done|].
    setoid_replace (inject_Z a / inject_Z (Z.pos b) * pow2 lb)%Q
      with (inject_Z a * (pow2 lb / inject_Z (Z.pos b)))%Q
      using relation Qeq by (field; lra).
    assert (pow2 lb / inject_Z (Z.pos b) <= 1)%Q.
    { apply Qle_shift_div_r; [done|]. lra. }
    assert (0 < inject_Z a)%Q by (by rewrite <- (Zlt_Qlt 0)).
    nra. }
  assert (pow2 (la - lb - 1) < a # b)%Q as Hlo.
  { replace (la - lb - 1) with (la - (lb + 1)) by lia.
    rewrite pow2_sub, Hab.
    apply Qlt_shift_div_r; [done|].
    setoid_replace (inject_Z a / inject_Z (Z.pos b) * pow2 (lb + 1))%Q
      with (inject_Z a * (pow2 (lb + 1) / inject_Z (Z.pos b)))%Q
      using relation Qeq by (field; lra).
    assert (1 < pow2 (lb + 1) / inject_Z (Z.pos b))%Q.
    { apply Qlt_shift_div_l; [done|]. lra. }
    assert (0 < inject_Z a)%Q by (by rewrite <- (Zlt_Qlt 0)).
    nra. }
  unfold binade. fold la lb. simpl Qnum. simpl Qden. fold la lb.
  destruct (Qle_bool (pow2 (la - lb)) (a # b)) eqn:E.
  - apply Qle_bool_iff in E. done.
  - assert (¬ (pow2 (la - lb) <= a # b)%Q) as Hn.
    { intros Hc. apply Qle_bool_iff in Hc. congruence. }
    apply Qnot_le_lt in Hn.
    replace (la - lb - 1 + 1) with (la - lb) by lia. split; [|done].
    by apply Qlt_le_weak.
Qed.

(** The binade of a number is the only one that holds it. *)
Lemma binade_unique x e :
  (pow2 e <= x)%Q → (x < pow2 (e + 1))%Q → binade x = e.
Proof.
  intros H1 H2.
  assert (0 < x)%Q as Hx by (pose proof (pow2_pos e); lra).
  destruct (binade_spec x Hx) as [H3 H4].
  destruct (Z.lt_trichotomy (binade x) e) as [Hlt | [Heq | Hgt]]; [|done|].
  - pose proof (pow2_le (binade x + 1) e ltac:(lia)). lra.
  - pose proof (pow2_le (e + 1) (binade x) ltac:(lia)). lra.
Qed.

Lemma binade_mono x y : (0 < x)%Q → (x <= y)%Q → binade x ≤ binade y.
Proof.
  intros Hx Hxy.
  destruct (binade_spec x Hx) as [H1 H2].
  destruct (binade_spec y ltac:(lra)) as [H3 H4].
  destruct (Z_lt_le_dec (binade y) (binade x)) as [Hlt|]; [|done].
  pose proof (pow2_le (binade y + 1) (binade x) ltac:(lia)). lra.
Qed.

Lemma ulp_exponent_mono x y :
  (0 < x)%Q → (x <= y)%Q → ulp_exponent x ≤ ulp_exponent y.
Proof.
  intros Hx Hxy. pose proof (binade_mono x y Hx Hxy). unfold ulp_exponent. lia.
Qed.

(** ** Rounding to a float *)

Lemma round_half_even_exact y k : (y == inject_Z k)%Q → round_half_even y = k.
Proof.
  intros H.
  pose proof (round_half_even_le k y ltac:(rewrite H; apply Qle_refl)).
  pose proof (round_half_even_ge k y ltac:(rewrite H; apply Qle_refl)).
  lia.
Qed.

Lemma div_pow2_le x y q : (x <= y)%Q → (x / pow2 q <= y / pow2 q)%Q.
Proof.
  intros H. pose proof (pow2_pos q).
  apply Qle_shift_div_l; [done|].
  setoid_replace (x / pow2 q * pow2 q)%Q with x using relation Qeq by (field; lra).
  done.
Qed.

Lemma round_pos_nonneg x : (0 <= x)%Q → (0 <= round_pos x)%Q.
Proof.
  intros Hx. unfold round_pos. pose proof (pow2_pos (ulp_exponent x)).
  apply Qmult_le_0_compat; [|lra].
  rewrite <- (Zle_Qle 0). apply round_half_even_ge.
  pose proof (div_pow2_le 0 x (ulp_exponent x) Hx) as Hd.
  setoid_replace (0 / pow2 (ulp_exponent x))%Q with 0%Q
    using relation Qeq in Hd by (field; lra).
  done.
Qed.

(** Rounding is monotone on the positive numbers: on one grid of
    multiples of a power of two because rounding to an integer is, and
    from one grid to the next because the power of two between the two
    numbers lies on both grids. *)
Lemma round_pos_mono x y :
  (0 < x)%Q → (x <= y)%Q → (round_pos x <= round_pos y)%Q.
Proof.
  intros Hx Hxy.
  pose proof (ulp_exponent_mono x y Hx Hxy) as Hq.
  pose proof (binade_mono x y Hx Hxy) as Hb.
  unfold round_pos.
  set (qx := ulp_exponent x) in *. set (qy := ulp_exponent y) in *.
  pose proof (pow2_pos qx). pose proof (pow2_pos qy).
  destruct (decide (qx = qy)) as [Heq|Hne].
  - rewrite <- Heq. apply Qmult_le_compat_r; [|lra].
    rewrite <- Zle_Qle. apply round_half_even_mono. by apply div_pow2_le.
  - assert (qx < qy) as Hlt by lia.
    set (E := binade y) in *.
    assert (qy = E - 52) as HqyE by (unfold qy, qx, ulp_exponent in *; fold E; lia).
    assert (binade x < E) as HbE by (unfold qy, qx, ulp_exponent in *; fold E in Hlt; lia).
    destruct (binade_spec x Hx) as [_ Hx2].
    destruct (binade_spec y ltac:(lra)) as [Hy1 _]. fold E in Hy1.
    pose proof (pow2_le (binade x + 1) E ltac:(lia)) as HxE.
    pose proof (pow2_pos E).
    apply Qle_trans with (pow2 E).
    + assert (round_half_even (x / pow2 qx) ≤ 2 ^ (E - qx)) as Hr.
      { apply round_half_even_le. rewrite <- pow2_int by lia.
        rewrite pow2_sub. apply div_pow2_le. lra. }
      apply Qle_trans with (inject_Z (2 ^ (E - qx)) * pow2 qx)%Q.
      * apply Qmult_le_compat_r; [|lra]. by rewrite <- Zle_Qle.
      * rewrite <- pow2_int by lia. rewrite <- pow2_add.
        replace (E - qx + qx) with E by lia. apply Qle_refl.
    + assert (2 ^ 52 ≤ round_half_even (y / pow2 qy)) as Hr.
      { apply round_half_even_ge. rewrite <- pow2_int by lia.
        replace 52 with (E - qy) by lia.
        rewrite pow2_sub. by apply div_pow2_le. }
      apply Qle_trans with (inject_Z (2 ^ 52) * pow2 qy)%Q.
      * rewrite <- pow2_int by lia. rewrite <- pow2_add.
        replace (52 + qy) with E by lia. apply Qle_refl.
      * apply Qmult_le_compat_r; [|lra]. by rewrite <- Zle_Qle.
Qed.

Lemma Qnum_pos x p : Qnum x = Z.pos p → (0 < x)%Q.
Proof. destruct x as [a b]. simpl. intros ->. done. Qed.

Lemma Qnum_neg x p : Qnum x = Z.neg p → (x < 0)%Q.
Proof. destruct x as [a b]. simpl. intros ->. done. Qed.

Lemma Qnum_zero x : Qnum x = 0 → (x == 0)%Q.
Proof. destruct x as [a b]. simpl. intros ->. done. Qed.

(** Rounding to the nearest float is monotone. *)
Lemma round64_mono x y : (x <= y)%Q → (round64 x <= round64 y)%Q.
Proof.
  intros Hxy. unfold round64.
  destruct (Qnum x) as [|p|p] eqn:Ex, (Qnum y) as [|p'|p'] eqn:Ey;
    try (apply Qnum_pos in Ex); try (apply Qnum_pos in Ey);
    try (apply Qnum_neg in Ex); try (apply Qnum_neg in Ey);
    try (apply Qnum_zero in Ex); try (apply Qnum_zero in Ey);
    try lra.
  - apply round_pos_nonneg. lra.
  - by apply round_pos_mono.
  - pose proof (round_pos_nonneg (- x) ltac:(lra)). lra.
  - pose proof (round_pos_nonneg (- x) ltac:(lra)).
    pose proof (round_pos_nonneg y ltac:(lra)). lra.
  - pose proof (round_pos_mono (- y) (- x) ltac:(lra) ltac:(lra)). lra.
Qed.

Lemma round64_nonneg x : (0 <= x)%Q → (0 <= round64 x)%Q.
Proof. intros H. by apply (round64_mono 0 x). Qed.

(** A mantissa of at most 53 bits at an exponent that the format has is
    a float. *)
Lemma round_pos_exact y m q :
  0 < m ≤ 2 ^ 53 → -1074 ≤ q → (y == inject_Z m * pow2 q)%Q →
  (round_pos y == y)%Q.
Proof.
  intros Hm Hq Hy.
  pose proof (pow2_pos q) as Hpq.
  assert (0 < inject_Z m)%Q as Hm0 by (rewrite <- (Zlt_Qlt 0); lia).
  assert (0 < y)%Q as Hy0 by (rewrite Hy; nra).
  destruct (binade_spec y Hy0) as [Hb1 Hb2].
  set (E := binade y) in *.
  assert (inject_Z m <= pow2 53)%Q as Hm53.
  { rewrite pow2_int by lia. rewrite <- Zle_Qle. lia. }
  assert (E ≤ q + 53) as HE.
  { destruct (Z_lt_le_dec (q + 53) E) as [Hlt|]; [exfalso|done].
    pose proof (pow2_le (q + 53 + 1) E ltac:(lia)) as Hp.
    assert (pow2 (q + 53) < pow2 (q + 53 + 1))%Q as Hstep.
    { rewrite (pow2_add (q + 53) 1). change (pow2 1) with 2%Q.
      pose proof (pow2_pos (q + 53)). lra. }
    assert (y <= pow2 (q + 53))%Q.
    { rewrite Hy, Z.add_comm, pow2_add. nra. }
    lra. }
  unfold round_pos, ulp_exponent. fold E.
  set (u := Z.max (E - 52) (-1074)).
  assert (u ≤ q + 1) as Hu by (unfold u; lia).
  pose proof (pow2_pos u) as Hpu.
  destruct (decide (u ≤ q)) as [Hle|Hgt].
  - assert (y / pow2 u == inject_Z (m * 2 ^ (q - u)))%Q as Hint.
    { rewrite inject_Z_mult, <- pow2_int by lia. rewrite pow2_sub, Hy.
      field. lra. }
    rewrite (round_half_even_exact _ _ Hint).
    rewrite inject_Z_mult, <- pow2_int by lia. rewrite pow2_sub, Hy.
    field. lra.
  - assert (u = q + 1) as Hu1 by lia.
    assert (E = q + 53) as HE1 by (unfold u in Hu1; lia).
    assert (m = 2 ^ 53) as ->.
    { destruct (decide (m = 2 ^ 53)) as [|Hne]; [done|exfalso].
      assert (inject_Z m <= inject_Z (2 ^ 53 - 1))%Q as Hm1.
      { rewrite <- Zle_Qle. lia. }
      assert (inject_Z (2 ^ 53 - 1) < pow2 53)%Q as Hlt.
      { rewrite pow2_int by lia. rewrite <- Zlt_Qlt. lia. }
      rewrite HE1 in Hb1. rewrite (Z.add_comm q 53), pow2_add in Hb1.
      rewrite Hy in Hb1. pose proof (pow2_pos 53). nra. }
    assert (y / pow2 u == inject_Z (2 ^ 52))%Q as Hint.
    { rewrite Hy, Hu1, (pow2_add q 1). change (pow2 1) with 2%Q.
      change (inject_Z (2 ^ 53)) with (2 * inject_Z (2 ^ 52))%Q.
      field. lra. }
    rewrite (round_half_even_exact _ _ Hint).
    rewrite Hy, Hu1, (pow2_add q 1). change (pow2 1) with 2%Q.
    change (inject_Z (2 ^ 53)) with (2 * inject_Z (2 ^ 52))%Q. ring.
Qed.

(** The rounding of a positive number is such a float. *)
Lemma round_pos_float x :
  (0 < x)%Q → (round64 (round_pos x) == round_pos x)%Q.
Proof.
  intros Hx.
  pose proof (round_pos_nonneg x ltac:(lra)) as Hy0.
  unfold round64.
  destruct (Qnum (round_pos x)) as [|p|p] eqn:En.
  - symmetry. by apply Qnum_zero.
  - apply Qnum_pos in En.
    set (q := ulp_exponent x). set (m := round_half_even (x / pow2 q)).
    pose proof (pow2_pos q) as Hpq.
    destruct (binade_spec x Hx) as [_ Hb2].
    assert (m ≤ 2 ^ 53) as Hm.
    { apply round_half_even_le. rewrite <- pow2_int by lia.
      apply Qle_shift_div_r; [done|]. rewrite <- pow2_add.
      pose proof (pow2_le (binade x + 1) (53 + q) ltac:(unfold q, ulp_exponent; lia)).
      lra. }
    assert (0 < m) as Hm0.
    { destruct (Z_lt_le_dec 0 m) as [|Hle]; [done|exfalso].
      assert (inject_Z m <= 0)%Q by (rewrite <- (Zle_Qle _ 0); lia).
      unfold round_pos in En. fold q m in En. nra. }
    apply (round_pos_exact _ m q); [lia|unfold q, ulp_exponent; lia|done].
  - apply Qnum_neg in En. lra.
Qed.

Lemma round64_opp x : (round64 (- x) == - round64 x)%Q.
Proof.
  destruct x as [[|p|p] d]; unfold round64; simpl Qnum.
  - done.
  - done.
  - symmetry. apply Qopp_involutive.
Qed.

(** The rounding of a number is a float: rounding it again changes
    nothing. *)
Lemma round64_idempotent x : (round64 (round64 x) == round64 x)%Q.
Proof.
  unfold round64 at 2 3. destruct (Qnum x) as [|p|p] eqn:En.
  - done.
  - apply Qnum_pos in En. by apply round_pos_float.
  - apply Qnum_neg in En. rewrite round64_opp.
    rewrite round_pos_float by lra. done.
Qed.

(** An integer below [2 ** 53] is a float. *)
Lemma round64_int n : 0 ≤ n < 2 ^ 53 → (round64 (inject_Z n) == inject_Z n)%Q.
Proof.
  intros Hn. unfold round64. destruct n as [|p|p]; simpl Qnum; [done| |lia].
  apply (round_pos_exact _ (Z.pos p) 0); [lia|lia|].
  change (pow2 0) with 1%Q. ring.
Qed.

Lemma round64_is_float x : is_float (round64 x).
Proof. apply round64_idempotent. Qed.

(** Rounding does not depend on the fraction that denotes a number. *)
Lemma round64_comp x y : (x == y)%Q → (round64 x == round64 y)%Q.
Proof.
  intros H. apply Qle_antisym; apply round64_mono; rewrite H; apply Qle_refl.
Qed.

(** A number between [0] and an integer below [2 ** 53] rounds to a float
    in the same range, without overflow. *)
Lemma to_float_bounded x n :
  0 ≤ n < 2 ^ 53 → (0 <= x <= inject_Z n)%Q →
  to_float x = Some (round64 x) ∧ (0 <= round64 x <= inject_Z n)%Q.
Proof.
  intros Hn [H0 H1].
  assert (0 <= round64 x)%Q as Hlo by (by apply round64_nonneg).
  assert (round64 x <= inject_Z n)%Q as Hhi.
  { rewrite <- (round64_int n Hn). by apply round64_mono. }
  split; [|done]. unfold to_float, overflows.
  destruct (Qle_bool (pow2 1024) (Qabs (round64 x))) eqn:E; [exfalso|done].
  apply Qle_bool_iff in E. rewrite Qabs_pos in E by done.
  assert (inject_Z n < pow2 1024)%Q.
  { rewrite pow2_int by lia. rewrite <- Zlt_Qlt.
    apply Z.lt_trans with (2 ^ 53); [lia|]. by apply Z.pow_lt_mono_r. }
  lra.
Qed.

(** A rate between [0] and [1] denotes a float between [0] and [1]. *)
Lemma round64_rate q : (0 <= q <= 1)%Q → (0 <= round64 q <= 1)%Q.
Proof.
  intros [H0 H1]. split; [by apply round64_nonneg|].
  rewrite <- (round64_int 1) by lia. by apply round64_mono.
Qed.

(** The product of an integer below [2 ** 53] and a rate between [0] and
    [1]: no exception, and [int(...)] of it lies between [0] and the
    integer. *)
Lemma int_times_float_rate n q :
  0 ≤ n < 2 ^ 53 → (0 <= q <= 1)%Q →
  ∃ p, int_times_float n q = Some p ∧
       (p == round64 (inject_Z n * round64 q))%Q ∧ (0 <= p <= inject_Z n)%Q.
Proof.
  intros Hn Hq. apply round64_rate in Hq as [H0 H1]. unfold int_times_float.
  assert (0 <= inject_Z n)%Q as Hn0 by (rewrite <- (Zle_Qle 0); lia).
  destruct (to_float_bounded (inject_Z n) n Hn) as [-> _].
  { split; [done|apply Qle_refl]. }
  cbn [mbind option_bind].
  pose proof (round64_int n Hn) as Hexact.
  destruct (to_float_bounded (round64 (inject_Z n) * round64 q) n Hn) as [-> Hb].
  { rewrite Hexact. split; nra. }
  eexists. split; [done|]. split; [|done].
  apply round64_comp. by rewrite Hexact.
Qed.

Lemma py_int_floor q : (0 <= q)%Q → py_int q = Qfloor q.
Proof.
  destruct q as [a d]. unfold Qle, py_int, Qfloor. simpl. intros Ha.
  apply Z.quot_div_nonneg; lia.
Qed.

Lemma Qfloor_bounds q n : (0 <= q <= inject_Z n)%Q → 0 ≤ Qfloor q ≤ n.
Proof.
  intros [H0 H1]. split.
  - apply Qfloor_resp_le in H0. exact H0.
  - apply Qfloor_resp_le in H1. by rewrite Qfloor_Z in H1.
Qed.

(** The float quotient of two counters lies between [0] and [1] when the
    first does not exceed the second. *)
Lemma int_div_nonneg s t : (0 <= int_div s t)%Q.
Proof. apply round64_nonneg. unfold Qle. simpl. lia. Qed.

Lemma int_div_le_1 s t : (s ≤ t)%nat → t ≠ 0%nat → (int_div s t <= 1)%Q.
Proof.
  intros Hst Ht. unfold int_div.
  rewrite <- (round64_int 1) by lia. apply round64_mono.
  destruct t as [|t]; [done|]. unfold Qle. simpl.
  rewrite <- Pos.of_nat_succ. lia.
Qed.

(** * Reading and writing the grid *)

(** ** numpy indexing on a grid of the right shape *)

Lemma np_index_in n i : 0 ≤ i < Z.of_nat n → np_index n i = Some (Z.to_nat i).
Proof. intros H. unfold np_index. by rewrite bool_decide_eq_true_2. Qed.

Lemma shape_row g h w x :
  shape g h w → 0 ≤ x < h →
  ∃ row, g !! Z.to_nat x = Some row ∧ Z.of_nat (length row) = w.
Proof.
  intros [Hl Hr] Hx.
  destruct (lookup_lt_is_Some_2 g (Z.to_nat x)) as [row Hrow]; [lia|].
  exists row. split; [done|].
  by eapply (Forall_lookup_1 _ _ _ _ Hr Hrow).
Qed.

Lemma grid_get_in g h w x y :
  shape g h w → 0 ≤ x < h → 0 ≤ y < w →
  ∃ row, g !! Z.to_nat x = Some row ∧ Z.of_nat (length row) = w ∧
         grid_get g x y = row !! Z.to_nat y.
Proof.
  intros Hs Hx Hy. destruct (shape_row g h w x Hs Hx) as (row & Hrow & Hw).
  exists row. split_and!; [done..|].
  unfold grid_get. destruct Hs as [Hl _].
  rewrite np_index_in; [|lia]. simpl. rewrite Hrow. simpl.
  rewrite np_index_in; [|lia]. done.
Qed.

Lemma grid_get_is_Some g h w x y :
  shape g h w → 0 ≤ x < h → 0 ≤ y < w → is_Some (grid_get g x y).
Proof.
  intros Hs Hx Hy. destruct (grid_get_in g h w x y Hs Hx Hy) as (row & Hrow & Hw & ->).
  apply lookup_lt_is_Some_2. lia.
Qed.

Lemma grid_set_in g h w x y v :
  shape g h w → 0 ≤ x < h → 0 ≤ y < w →
  ∃ row, g !! Z.to_nat x = Some row ∧ Z.of_nat (length row) = w ∧
         grid_set g x y v = Some (<[Z.to_nat x := <[Z.to_nat y := v]> row]> g).
Proof.
  intros Hs Hx Hy. destruct (shape_row g h w x Hs Hx) as (row & Hrow & Hw).
  exists row. split_and!; [done..|].
  unfold grid_set. destruct Hs as [Hl _].
  rewrite np_index_in; [|lia]. simpl. rewrite Hrow. simpl.
  rewrite np_index_in; [|lia]. done.
Qed.

Lemma grid_set_is_Some g h w x y v :
  shape g h w → 0 ≤ x < h → 0 ≤ y < w → is_Some (grid_set g x y v).
Proof.
  intros Hs Hx Hy. destruct (grid_set_in g h w x y v Hs Hx Hy) as (row & _ & _ & ->).
  by eexists.
Qed.

Lemma grid_set_shape g h w x y v g' :
  shape g h w → grid_set g x y v = Some g' → shape g' h w.
Proof.
  intros [Hl Hr] Hset. unfold grid_set in Hset.
  destruct (np_index (length g) x) as [i|]; [|done]. simpl in Hset.
  destruct (g !! i) as [row|] eqn:Hrow; [|done]. simpl in Hset.
  destruct (np_index (length row) y) as [j|]; [|done]. simpl in Hset.
  injection Hset as <-. split.
  - by rewrite length_insert.
  - apply Forall_insert; [done|]. rewrite length_insert.
    by eapply (Forall_lookup_1 _ _ _ _ Hr Hrow).
Qed.

Lemma grid_get_set_eq g h w x y v g' :
  shape g h w → 0 ≤ x < h → 0 ≤ y < w →
  grid_set g x y v = Some g' → grid_get g' x y = Some v.
Proof.
  intros Hs Hx Hy Hset.
  pose proof (grid_set_shape _ _ _ _ _ _ _ Hs Hset) as Hs'.
  destruct (grid_set_in g h w x y v Hs Hx Hy) as (row & Hrow & Hw & Heq).
  rewrite Heq in Hset. injection Hset as <-.
  destruct (grid_get_in _ h w x y Hs' Hx Hy) as (row' & Hrow' & Hw' & ->).
  rewrite list_lookup_insert_eq in Hrow'; [|by eapply lookup_lt_Some].
  injection Hrow' as <-. apply list_lookup_insert_eq. lia.
Qed.

Lemma grid_get_set_ne g h w x y v g' x' y' :
  shape g h w → 0 ≤ x < h → 0 ≤ y < w → 0 ≤ x' < h → 0 ≤ y' < w →
  (x', y') ≠ (x, y) →
  grid_set g x y v = Some g' → grid_get g' x' y' = grid_get g x' y'.
Proof.
  intros Hs Hx Hy Hx' Hy' Hne Hset.
  pose proof (grid_set_shape _ _ _ _ _ _ _ Hs Hset) as Hs'.
  destruct (grid_set_in g h w x y v Hs Hx Hy) as (row & Hrow & Hw & Heq).
  rewrite Heq in Hset. injection Hset as <-.
  destruct (grid_get_in _ h w x' y' Hs' Hx' Hy') as (row' & Hrow' & Hw' & ->).
  destruct (grid_get_in _ h w x' y' Hs Hx' Hy') as (row0 & Hrow0 & Hw0 & ->).
  destruct (decide (x' = x)) as [->|Hxx].
  - rewrite list_lookup_insert_eq in Hrow'; [|by eapply lookup_lt_Some].
    injection Hrow' as <-. rewrite Hrow in Hrow0. injection Hrow0 as <-.
    apply list_lookup_insert_ne. intros E. apply Hne. f_equal. lia.
  - rewrite list_lookup_insert_ne in Hrow'; [|lia]. congruence.
Qed.

(** Writing back the value a cell already holds changes nothing. *)
Lemma grid_set_same g h w x y v :
  shape g h w → 0 ≤ x < h → 0 ≤ y < w →
  grid_get g x y = Some v → grid_set g x y v = Some g.
Proof.
  intros Hs Hx Hy Hget.
  destruct (grid_set_in g h w x y v Hs Hx Hy) as (row & Hrow & Hw & ->).
  destruct (grid_get_in g h w x y Hs Hx Hy) as (row' & Hrow' & _ & Heq).
  rewrite Hrow in Hrow'. injection Hrow' as <-. rewrite Heq in Hget.
  f_equal. rewrite (list_insert_id row); [|done]. by apply list_insert_id.
Qed.

(** ** The scan order *)

Lemma elem_of_coords c p : p ∈ coords c ↔ in_bounds c p.
Proof.
  unfold coords, in_bounds, range. rewrite list_elem_of_bind. split.
  - intros (i & Hp & Hi). apply list_elem_of_bind in Hp as (j & Hp & Hj).
    apply list_elem_of_singleton in Hp as ->. simpl.
    apply elem_of_seqZ in Hi, Hj. lia.
  - intros [Hi Hj]. exists p.1. split; [|apply elem_of_seqZ; lia].
    apply list_elem_of_bind. exists p.2. split; [|apply elem_of_seqZ; lia].
    destruct p. simpl. by apply list_elem_of_singleton.
Qed.

Lemma NoDup_coords c : NoDup (coords c).
Proof.
  unfold coords, range. apply NoDup_bind; [| |apply NoDup_seqZ].
  - intros i1 i2 p _ _ H1 H2.
    apply list_elem_of_bind in H1 as (j1 & H1 & _).
    apply list_elem_of_bind in H2 as (j2 & H2 & _).
    apply list_elem_of_singleton in H1, H2. congruence.
  - intros i _. apply NoDup_bind; [| |apply NoDup_seqZ].
    + intros j1 j2 p _ _ H1 H2. apply list_elem_of_singleton in H1, H2. congruence.
    + intros j _. apply NoDup_singleton.
Qed.

Lemma read_is_Some c p : well_formed c → in_bounds c p → is_Some (read c p).
Proof. intros Hwf [Hx Hy]. by eapply grid_get_is_Some. Qed.

(** ** Comprehensions *)

Lemma filterM_spec {A} (p : A → option bool) (Q : A → Prop)
    `{!∀ a, Decision (Q a)} (l : list A) :
  (∀ a, a ∈ l → p a = Some (bool_decide (Q a))) →
  filterM p l = Some (filter Q l).
Proof.
  induction l as [|a l IH]; intros Hp; [done|].
  simpl. rewrite Hp; [|by left]. simpl.
  rewrite IH; [|intros; apply Hp; by right]. simpl.
  rewrite filter_cons. by destruct (decide (Q a)); [rewrite bool_decide_eq_true_2|rewrite bool_decide_eq_false_2].
Qed.



(** ** Counting *)

Lemma count_nil {A} (f : A → bool) : count f [] = 0%nat.
Proof. done. Qed.

Lemma count_cons {A} (f : A → bool) a l :
  count f (a :: l) = (b2n (f a) + count f l)%nat.
Proof.
  unfold count. rewrite filter_cons.
  destruct (decide (f a = true)) as [->|Hf]; [done|].
  by destruct (f a).
Qed.

Lemma count_app {A} (f : A → bool) l1 l2 :
  count f (l1 ++ l2) = (count f l1 + count f l2)%nat.
Proof. unfold count. by rewrite filter_app, length_app. Qed.

Lemma count_ext {A} (f f' : A → bool) l :
  (∀ q, q ∈ l → f' q = f q) → count f' l = count f l.
Proof.
  induction l as [|a l IH]; intros H; [done|].
  rewrite !count_cons, H, IH; [done| |by left].
  intros q Hq. apply H. by right.
Qed.


(** Two predicates that differ at one place of a duplicate-free list. *)
Lemma count_change {A} (f f' : A → bool) (l : list A) p :
  NoDup l → p ∈ l → (∀ q, q ∈ l → q ≠ p → f' q = f q) →
  (count f' l + b2n (f p) = count f l + b2n (f' p))%nat.
Proof.
  induction l as [|a l IH]; intros Hnd Hp Hext.
  - by apply not_elem_of_nil in Hp.
  - apply NoDup_cons in Hnd as [Ha Hnd]. rewrite !count_cons.
    apply elem_of_cons in Hp as [->|Hp].
    + rewrite (count_ext f f' l); [lia|].
      intros q Hq. apply Hext; [by right|]. by intros ->.
    + rewrite (Hext a); [|by left|by intros ->].
      assert (∀ q, q ∈ l → q ≠ p → f' q = f q) as Hext'.
      { intros q Hq. apply Hext. by right. }
      specialize (IH Hnd Hp Hext'). lia.
Qed.

Lemma holds_read P c p v : read c p = Some v → holds P c p = P v.
Proof. unfold holds. by intros ->. Qed.

(** * Relocating one agent *)

(** ** The vacant cells *)

Lemma vacant_cells_spec c :
  well_formed c →
  vacant_cells c = Some (filter (λ p, read c p = Some None) (coords c)).
Proof.
  intros Hwf. unfold vacant_cells. apply filterM_spec.
  intros p Hp. apply elem_of_coords in Hp.
  destruct (read_is_Some c p Hwf Hp) as [v Hv]. unfold read in *.
  rewrite Hv. simpl. by destruct v.
Qed.

Lemma elem_of_vacant_cells c vs p :
  well_formed c → vacant_cells c = Some vs →
  p ∈ vs ↔ in_bounds c p ∧ read c p = Some None.
Proof.
  intros Hwf Hvs. rewrite vacant_cells_spec in Hvs by done.
  injection Hvs as <-. rewrite list_elem_of_filter, elem_of_coords. tauto.
Qed.

Lemma random_choice_elem {A} (l : list A) rs :
  l ≠ [] → ∃ a, random_choice l rs = Some (a, tl rs) ∧ a ∈ l.
Proof.
  intros Hl. unfold random_choice.
  destruct (lookup_lt_is_Some_2 l (hd 0%nat rs mod length l)%nat) as [a Ha].
  { apply Nat.mod_upper_bound. by destruct l. }
  exists a. rewrite Ha. split; [done|]. by eapply list_elem_of_lookup_2.
Qed.

(** ** One relocation *)

(** With no vacant cell the call returns at once. *)
Lemma relocate_agent_full c x y rs :
  vacant_cells c = Some [] → relocate_agent c x y rs = Some (c, rs).
Proof. intros H. unfold relocate_agent. by rewrite H. Qed.

(** With a vacant cell, the call draws a destination [d] among the vacant
    cells, writes the source cell's content to it and then clears the
    source. *)
Lemma relocate_agent_unfold c x y rs a :
  well_formed c → in_bounds c (x, y) → read c (x, y) = Some a →
  (∃ q, in_bounds c q ∧ read c q = Some None) →
  ∃ d g1 g2,
    in_bounds c d ∧ read c d = Some None ∧
    grid_set (grid c) d.1 d.2 a = Some g1 ∧
    grid_set g1 x y None = Some g2 ∧
    relocate_agent c x y rs =
      Some (set_moved_agents (set_grid c g2) ({[ (x, y) ]} ∪ moved_agents c),
            tl rs).
Proof.
  intros Hwf Hxy Ha (q & Hq & Hqv).
  pose proof (vacant_cells_spec c Hwf) as Hvs.
  set (vs := filter (λ p, read c p = Some None) (coords c)) in *.
  assert (q ∈ vs) as Hqvs.
  { apply (elem_of_vacant_cells c vs q Hwf Hvs). done. }
  assert (vs ≠ []) as Hne by (intros E; rewrite E in Hqvs; by apply not_elem_of_nil in Hqvs).
  destruct (random_choice_elem vs rs Hne) as (d & Hch & Hd).
  apply (elem_of_vacant_cells c vs d Hwf Hvs) in Hd as [Hdb Hdv].
  destruct Hdb as [Hd1 Hd2]. destruct Hxy as [Hx Hy]. simpl in Hx, Hy.
  destruct (grid_set_is_Some (grid c) _ _ d.1 d.2 a Hwf Hd1 Hd2) as [g1 Hg1].
  pose proof (grid_set_shape _ _ _ _ _ _ _ Hwf Hg1) as Hs1.
  destruct (grid_set_is_Some g1 _ _ x y None Hs1 Hx Hy) as [g2 Hg2].
  exists d, g1, g2. split_and!; try done.
  unfold relocate_agent. rewrite Hvs. simpl.
  destruct vs as [|v0 vs0]; [done|].
  rewrite Hch. simpl. unfold read in Ha. simpl in Ha. rewrite Ha. simpl.
  rewrite Hg1. simpl. rewrite Hg2. done.
Qed.

Lemma same_config_refl c : same_config c c.
Proof. by repeat split. Qed.

Lemma same_config_trans c1 c2 c3 :
  same_config c1 c2 → same_config c2 c3 → same_config c1 c3.
Proof. unfold same_config. intros (?&?&?&?&?) (?&?&?&?&?). split_and!; congruence. Qed.

Lemma same_config_coords c c' : same_config c c' → coords c' = coords c.
Proof. intros (Hw & Hh & _). unfold coords. by rewrite Hw, Hh. Qed.

Lemma same_config_in_bounds c c' p :
  same_config c c' → in_bounds c' p ↔ in_bounds c p.
Proof. intros (Hw & Hh & _). unfold in_bounds. by rewrite Hw, Hh. Qed.

(** What a relocation that finds a vacant cell does to the city. *)
Lemma relocate_agent_moves c x y rs a :
  well_formed c → in_bounds c (x, y) → read c (x, y) = Some a →
  (∃ q, in_bounds c q ∧ read c q = Some None) →
  ∃ c' d,
    relocate_agent c x y rs = Some (c', tl rs) ∧
    in_bounds c d ∧ read c d = Some None ∧
    well_formed c' ∧ same_config c c' ∧
    moved_agents c' = {[ (x, y) ]} ∪ moved_agents c ∧
    read c' (x, y) = Some None ∧
    (d ≠ (x, y) → read c' d = Some a) ∧
    (∀ q, in_bounds c q → q ≠ d → q ≠ (x, y) → read c' q = read c q) ∧
    (∀ P, count_cells P c' = count_cells P c).
Proof.
  intros Hwf Hxy Ha Hq.
  destruct (relocate_agent_unfold c x y rs a Hwf Hxy Ha Hq)
    as (d & g1 & g2 & Hd & Hdv & Hg1 & Hg2 & Hrel).
  pose proof (grid_set_shape _ _ _ _ _ _ _ Hwf Hg1) as Hs1.
  pose proof (grid_set_shape _ _ _ _ _ _ _ Hs1 Hg2) as Hs2.
  destruct Hd as [Hd1 Hd2]. destruct Hxy as [Hx Hy]. simpl in Hx, Hy.
  assert (grid_get g1 x y = Some a) as Hg1xy.
  { destruct (decide ((x, y) = d)) as [<-|Hne].
    - simpl in Hg1. by apply (grid_get_set_eq (grid c) _ _ x y a g1 Hwf).
    - rewrite <- Ha. unfold read. simpl.
      eapply (grid_get_set_ne (grid c) _ _ d.1 d.2); [done..| |done].
      by destruct d. }
  assert (grid_get g2 x y = Some None) as Hg2xy.
  { by apply (grid_get_set_eq g1 _ _ x y None g2 Hs1). }
  eexists _, d. split; [exact Hrel|]. split_and!; try done.
  - intros Hne. unfold read. simpl.
    rewrite (grid_get_set_ne g1 _ _ x y None g2 d.1 d.2 Hs1); [|done..| |done];
      [|by destruct d].
    by apply (grid_get_set_eq (grid c) _ _ d.1 d.2 a g1 Hwf).
  - intros q [Hq1 Hq2] Hqd Hqxy. unfold read. simpl.
    rewrite (grid_get_set_ne g1 _ _ x y None g2 q.1 q.2 Hs1); [|done..| |done];
      [|by destruct q].
    apply (grid_get_set_ne (grid c) _ _ d.1 d.2 a g1 q.1 q.2 Hwf); [done..| |done].
    by destruct q, d.
  - intros P. unfold count_cells.
    set (c1 := set_grid c g1).
    set (c2 := set_moved_agents (set_grid c g2) ({[(x, y)]} ∪ moved_agents c)).
    change (coords c2) with (coords c).
    assert (d ∈ coords c) as Hdin by (by apply elem_of_coords).
    assert ((x, y) ∈ coords c) as Hxyin by (by apply elem_of_coords).
    pose proof (count_change (holds P c) (holds P c1) (coords c) d
                  (NoDup_coords c) Hdin) as H1.
    pose proof (count_change (holds P c1) (holds P c2) (coords c) (x, y)
                  (NoDup_coords c) Hxyin) as H2.
    assert (holds P c d = P None) as E1 by (by apply holds_read).
    assert (holds P c1 d = P a) as E2.
    { apply holds_read. unfold read. simpl.
      by apply (grid_get_set_eq (grid c) _ _ d.1 d.2 a g1 Hwf). }
    assert (holds P c1 (x, y) = P a) as E3 by (by apply holds_read).
    assert (holds P c2 (x, y) = P None) as E4 by (by apply holds_read).
    rewrite E1, E2 in H1. rewrite E3, E4 in H2.
    assert (count (holds P c1) (coords c) + b2n (P None)
            = count (holds P c) (coords c) + b2n (P a))%nat as H1'.
    { apply H1. intros q Hq' Hne. apply elem_of_coords in Hq' as [Hq1 Hq2].
      unfold holds, read. simpl.
      rewrite (grid_get_set_ne (grid c) _ _ d.1 d.2 a g1 q.1 q.2 Hwf); [done|done..| |done].
      by destruct q, d. }
    assert (count (holds P c2) (coords c) + b2n (P a)
            = count (holds P c1) (coords c) + b2n (P None))%nat as H2'.
    { apply H2. intros q Hq' Hne. apply elem_of_coords in Hq' as [Hq1 Hq2].
      unfold holds, read. simpl.
      rewrite (grid_get_set_ne g1 _ _ x y None g2 q.1 q.2 Hs1); [done|done..| |done].
      by destruct q. }
    lia.
Qed.

(** Every cell occupied: the list of vacant cells is empty. *)
Lemma vacant_cells_none c :
  well_formed c →
  (∀ p, in_bounds c p → ∃ a, read c p = Some (Some a)) →
  vacant_cells c = Some [].
Proof.
  intros Hwf Hall. rewrite vacant_cells_spec by done. f_equal.
  destruct (filter (λ p, read c p = Some None) (coords c)) as [|q l] eqn:E; [done|].
  exfalso. assert (q ∈ q :: l) as Hin by left. rewrite <- E in Hin.
  apply list_elem_of_filter in Hin as [Hv Hin]. apply elem_of_coords in Hin.
  destruct (Hall q Hin) as [a Ha]. congruence.
Qed.

(** A call of [relocate_agent] on a cell of the grid never raises; it
    keeps the shape, the configuration and every count of cells. *)
Lemma relocate_agent_total c x y rs :
  well_formed c → in_bounds c (x, y) →
  ∃ c' rs',
    relocate_agent c x y rs = Some (c', rs') ∧
    well_formed c' ∧ same_config c c' ∧
    (∀ P, count_cells P c' = count_cells P c) ∧
    (∀ q b, in_bounds c q → q ≠ (x, y) →
            read c q = Some (Some b) → read c' q = Some (Some b)) ∧
    moved_agents c' =
      (if decide (vacant_cells c = Some []) then moved_agents c
       else {[ (x, y) ]} ∪ moved_agents c) ∧
    (vacant_cells c ≠ Some [] → vacant_cells c' ≠ Some []).
Proof.
  intros Hwf Hxy.
  destruct (decide (vacant_cells c = Some [])) as [Hv|Hv].
  - exists c, rs. rewrite relocate_agent_full by done.
    split_and!; done.
  - assert (∃ q, in_bounds c q ∧ read c q = Some None) as Hq.
    { rewrite vacant_cells_spec in Hv by done.
      destruct (filter (λ p, read c p = Some None) (coords c)) as [|q l] eqn:E; [done|].
      exists q. assert (q ∈ q :: l) as Hin by left. rewrite <- E in Hin.
      apply list_elem_of_filter in Hin as [? Hin]. by apply elem_of_coords in Hin. }
    destruct (read_is_Some c (x, y) Hwf Hxy) as [a Ha].
    destruct (relocate_agent_moves c x y rs a Hwf Hxy Ha Hq)
      as (c' & d & Hrel & Hd & Hdv & Hwf' & Hcfg & Hmv & Hsrc & Hdst & Hoth & Hcnt).
    exists c', (tl rs). split_and!; try done.
    + intros q b Hqb Hne Hqv. rewrite Hoth; try done. intros ->. congruence.
    + intros _ Hv'.
      assert ((x, y) ∈ @nil coord) as Hin; [|by apply not_elem_of_nil in Hin].
      apply (elem_of_vacant_cells c' [] (x, y) Hwf' Hv'). split; [|done].
      by apply (same_config_in_bounds c c').
Qed.

(** ** One sweep: relocating a list of coordinates in turn *)

Lemma relocate_each_total ps c rs :
  well_formed c → (∀ p, p ∈ ps → in_bounds c p) →
  ∃ c' rs',
    relocate_each ps c rs = Some (c', rs') ∧
    well_formed c' ∧ same_config c c' ∧
    (∀ P, count_cells P c' = count_cells P c) ∧
    (∀ q b, in_bounds c q → q ∉ ps →
            read c q = Some (Some b) → read c' q = Some (Some b)) ∧
    moved_agents c' =
      (if decide (vacant_cells c = Some []) then moved_agents c
       else list_to_set ps ∪ moved_agents c).
Proof.
  revert c rs. induction ps as [|p ps IH]; intros c rs Hwf Hps.
  - exists c, rs. split_and!; try done.
    case_decide; [done|]. simpl. by rewrite (left_id_L ∅ (∪)).
  - destruct p as [x y].
    destruct (relocate_agent_total c x y rs Hwf) as
      (c1 & rs1 & Hrel & Hwf1 & Hcfg1 & Hcnt1 & Hoth1 & Hmv1 & Hvac1).
    { apply Hps. by left. }
    destruct (IH c1 rs1 Hwf1) as (c2 & rs2 & Hrel2 & Hwf2 & Hcfg2 & Hcnt2 & Hoth2 & Hmv2).
    { intros q Hq. apply (same_config_in_bounds c c1); [done|]. apply Hps. by right. }
    exists c2, rs2. split_and!; try done.
    + simpl. rewrite Hrel. simpl. done.
    + by eapply same_config_trans.
    + intros P. by rewrite Hcnt2, Hcnt1.
    + intros q b Hq Hnin Hv. apply not_elem_of_cons in Hnin as [Hne Hnin].
      apply Hoth2; [by apply (same_config_in_bounds c c1)|done|].
      by apply Hoth1.
    + rewrite Hmv2, Hmv1.
      destruct (decide (vacant_cells c = Some [])) as [Hv|Hv].
      * rewrite relocate_agent_full in Hrel by done. injection Hrel as <- <-.
        by rewrite decide_True by done.
      * rewrite decide_False by (by apply Hvac1). simpl.
        by rewrite (assoc_L (∪)), (comm_L (∪) (list_to_set ps)).
Qed.

Lemma relocate_each_app pre post c rs :
  relocate_each (pre ++ post) c rs =
  relocate_each pre c rs ≫= λ '(c1, rs1), relocate_each post c1 rs1.
Proof.
  revert c rs. induction pre as [|p pre IH]; intros c rs; simpl.
  - done.
  - destruct (relocate_agent c p.1 p.2 rs) as [[c' rs']|]; [|done]. simpl. apply IH.
Qed.

(** * One run *)

(** ** The scan for unhappy agents *)

Lemma neighbors_loop_is_Some c x y dirs :
  well_formed c → is_Some (neighbors_loop c x y dirs).
Proof.
  intros Hwf. induction dirs as [|[dx dy] dirs [vs IH]]; [by eexists|].
  simpl. case_bool_decide as Hb; [|by eexists].
  destruct Hb as [Hx Hy].
  destruct (grid_get_is_Some (grid c) _ _ (x + dx) (y + dy) Hwf Hx Hy) as [v Hv].
  rewrite Hv, IH. by eexists.
Qed.

Lemma is_happy_is_Some c p :
  well_formed c → in_bounds c p → is_Some (is_happy c p.1 p.2).
Proof.
  intros Hwf Hp. unfold is_happy.
  destruct (read_is_Some c p Hwf Hp) as [v Hv]. unfold read in Hv. rewrite Hv. simpl.
  destruct v as [a|]; [|by eexists].
  destruct (neighbors_loop_is_Some c p.1 p.2 directions Hwf) as [ns Hns].
  unfold get_neighbors. rewrite Hns. simpl. by destruct (_ =? _)%nat; eexists.
Qed.

Lemma unhappy_agents_spec c :
  well_formed c →
  unhappy_agents c = Some (filter (λ p, unhappy_at c p = true) (coords c)).
Proof.
  intros Hwf. unfold unhappy_agents. apply filterM_spec.
  intros p Hp. apply elem_of_coords in Hp. unfold unhappy_at.
  destruct (read_is_Some c p Hwf Hp) as [v Hv]. rewrite Hv.
  unfold read in Hv. rewrite Hv. simpl. destruct v as [a|]; [|done].
  destruct (is_happy_is_Some c p Hwf Hp) as [h Hh]. rewrite Hh. simpl.
  by destruct h.
Qed.

Lemma elem_of_unhappy_agents c ps p :
  well_formed c → unhappy_agents c = Some ps →
  p ∈ ps ↔ in_bounds c p ∧ unhappy_at c p = true.
Proof.
  intros Hwf Hps. rewrite unhappy_agents_spec in Hps by done.
  injection Hps as <-. rewrite list_elem_of_filter, elem_of_coords. tauto.
Qed.

Lemma NoDup_unhappy_agents c ps :
  well_formed c → unhappy_agents c = Some ps → NoDup ps.
Proof.
  intros Hwf Hps. rewrite unhappy_agents_spec in Hps by done.
  injection Hps as <-. apply NoDup_filter, NoDup_coords.
Qed.

Lemma unhappy_at_occupied c p :
  unhappy_at c p = true → ∃ a, read c p = Some (Some a).
Proof.
  unfold unhappy_at. destruct (read c p) as [[a|]|]; [by eexists|done..].
Qed.

(** ** The simulation loop *)

(** A sweep hands to [relocate_each] the list that the scan of the city
    it starts from yields. *)
Lemma sweep_spec c rs :
  well_formed c →
  sweep c rs =
    match filter (λ p, unhappy_at c p = true) (coords c) with
    | [] => Some None
    | ps => Some <$> relocate_each ps c rs
    end.
Proof.
  intros Hwf. unfold sweep. rewrite unhappy_agents_spec by done. simpl.
  destruct (filter _ _) as [|p ps]; [done|].
  simpl. destruct (relocate_agent c p.1 p.2 rs) as [[c' rs']|]; [|done].
  simpl. by destruct (relocate_each ps c' rs').
Qed.

Lemma sweep_total c rs :
  well_formed c →
  (sweep c rs = Some None ∧ unhappy_agents c = Some []) ∨
  (∃ c' rs', sweep c rs = Some (Some (c', rs')) ∧
     well_formed c' ∧ same_config c c' ∧
     (∀ P, count_cells P c' = count_cells P c)).
Proof.
  intros Hwf. rewrite sweep_spec by done.
  pose proof (unhappy_agents_spec c Hwf) as Hun.
  destruct (filter (λ p, unhappy_at c p = true) (coords c)) as [|p ps] eqn:E.
  - by left.
  - right.
    destruct (relocate_each_total (p :: ps) c rs Hwf)
      as (c' & rs' & Hrel & Hwf' & Hcfg & Hcnt & _).
    { intros q Hq. by apply (elem_of_unhappy_agents c (p :: ps) q Hwf Hun). }
    exists c', rs'. by rewrite Hrel.
Qed.

Lemma simulation_loop_total iters n c rs :
  well_formed c →
  ∃ r, simulation_loop iters n c rs = Some r ∧
       well_formed (run_city r) ∧ same_config c (run_city r) ∧
       (∀ P, count_cells P (run_city r) = count_cells P c) ∧
       (n ≤ run_iterations r ≤ n + length iters)%nat ∧
       (run_outcome r = Converged →
          unhappy_agents (run_city r) = Some [] ∧ (n < run_iterations r)%nat) ∧
       (run_outcome r = BudgetExhausted →
          run_iterations r = (n + length iters)%nat).
Proof.
  revert n c rs. induction iters as [|i iters IH]; intros n c rs Hwf.
  - eexists. split; [done|]. simpl. split_and!; try done; lia.
  - simpl.
    destruct (sweep_total c rs Hwf) as [[Hs Hun]|(c' & rs' & Hs & Hwf' & Hcfg & Hcnt)];
      rewrite Hs; simpl.
    + eexists. split; [done|]. simpl.
      split_and!; try done; try lia.
      intros _. split; [done|lia].
    + destruct (IH (S n) c' rs' Hwf') as (r & Hr & Hwfr & Hcfgr & Hcntr & Hit & Hconv & Hbud).
      exists r. split; [done|]. split; [done|].
      split; [by eapply same_config_trans|].
      split; [intros P; by rewrite Hcntr, Hcnt|].
      split; [lia|]. split.
      * intros Hc. destruct (Hconv Hc). split; [done|lia].
      * intros Hb. rewrite (Hbud Hb). lia.
Qed.

(** A loop left by [break] does not look at the rest of its range. *)
Lemma simulation_loop_converged_app iters extra n c rs r :
  simulation_loop iters n c rs = Some r → run_outcome r = Converged →
  simulation_loop (iters ++ extra) n c rs = Some r.
Proof.
  revert n c rs. induction iters as [|i iters IH]; intros n c rs Hr Hc.
  - simpl in Hr. injection Hr as <-. done.
  - simpl in *. destruct (sweep c rs) as [[[c' rs']|]|]; simpl in *; [|done..].
    by apply IH.
Qed.

(** A loop that exhausts its range goes on, over a longer range, from the
    city and the generator that it left. *)
Lemma simulation_loop_exhausted_app iters extra n c rs r :
  simulation_loop iters n c rs = Some r → run_outcome r = BudgetExhausted →
  run_iterations r = (n + length iters)%nat ∧
  simulation_loop (iters ++ extra) n c rs
  = simulation_loop extra (n + length iters) (run_city r) (run_rng r).
Proof.
  revert n c rs. induction iters as [|i iters IH]; intros n c rs Hr Hb.
  - simpl in Hr. injection Hr as <-. simpl. by rewrite Nat.add_0_r.
  - simpl in *. destruct (sweep c rs) as [[[c' rs']|]|]; simpl in *.
    + destruct (IH _ _ _ Hr Hb) as [-> ->].
      split; [lia|]. f_equal. lia.
    + injection Hr as <-. done.
    + done.
Qed.

(** A pass whose scan finds no unhappy agent ends the loop. *)
Lemma simulation_loop_break i iters n c rs :
  unhappy_agents c = Some [] →
  simulation_loop (i :: iters) n c rs = Some (mkRun Converged (S n) c rs).
Proof. intros Hun. simpl. unfold sweep. by rewrite Hun. Qed.

(** * The relocation policy *)

(** C6: on a grid of the right shape in which every cell holds an agent,
    [relocate_agent] on any coordinate returns normally and leaves the
    whole city (the grid and the set of moved agents among it) and the
    random generator as they were. *)
Theorem relocate_agent_without_vacancy c x y rs :
  well_formed c →
  (∀ p, in_bounds c p → ∃ a, read c p = Some (Some a)) →
  relocate_agent c x y rs = Some (c, rs).
Proof. intros Hwf Hall. apply relocate_agent_full. by apply vacant_cells_none. Qed.

Lemma relocate_agent_without_vacancy_witness :
  well_formed city_full ∧
  relocate_agent city_full 0 0 [1%nat] = Some (city_full, [1%nat]).
Proof.
  split; [exact well_formed_city_full|].
  apply relocate_agent_without_vacancy; [exact well_formed_city_full|].
  intros [i j] [Hi Hj]. simpl in Hi, Hj.
  assert (i = 0) as -> by lia.
  assert (j = 0 ∨ j = 1) as [-> | ->] by lia; eexists; reflexivity.
Defined.

(** C10: [relocate_agent] called on a vacant cell of the grid (so that a
    vacant cell exists) leaves the grid as it was and still adds the
    coordinate to the set of moved agents. *)
Theorem relocate_agent_from_vacant_cell c x y rs :
  well_formed c → in_bounds c (x, y) → read c (x, y) = Some None →
  ∃ c', relocate_agent c x y rs = Some (c', tl rs) ∧
        grid c' = grid c ∧
        moved_agents c' = {[ (x, y) ]} ∪ moved_agents c.
Proof.
  intros Hwf Hxy Hv.
  destruct (relocate_agent_unfold c x y rs None Hwf Hxy Hv)
    as (d & g1 & g2 & [Hd1 Hd2] & Hdv & Hg1 & Hg2 & Hrel).
  { by exists (x, y). }
  destruct Hxy as [Hx Hy]. simpl in Hx, Hy.
  rewrite (grid_set_same (grid c) _ _ d.1 d.2 None Hwf Hd1 Hd2 Hdv) in Hg1.
  injection Hg1 as <-.
  rewrite (grid_set_same (grid c) _ _ x y None Hwf Hx Hy Hv) in Hg2.
  injection Hg2 as <-.
  eexists. split; [exact Hrel|]. done.
Qed.

Lemma relocate_agent_from_vacant_cell_witness :
  ∃ c', relocate_agent city_line 0 2 [1%nat] = Some (c', []) ∧
        grid c' = grid city_line ∧
        moved_agents c' = {[ (0, 2) ]} ∪ moved_agents city_line.
Proof.
  apply (relocate_agent_from_vacant_cell city_line 0 2 [1%nat]).
  - exact well_formed_city_line.
  - literal_bounds.
  - reflexivity.
Defined.

(** C5: in a city of the right shape,
    - a relocation from an occupied cell [(x, y)], when the grid has a
      vacant cell, leaves [(x, y)] vacant and puts its agent into a cell
      [d] that was vacant; no other cell changes, so [d] is the only
      cell that was vacant and now holds an agent; the number of occupied
      cells and, for every type, the number of agents of that type stay
      the same;
    - every call of [relocate_agent] on a cell of the grid and every run
      of the simulation keep these numbers too. *)
Theorem relocation_invariant c :
  well_formed c →
  (∀ x y rs a,
     in_bounds c (x, y) → read c (x, y) = Some (Some a) →
     (∃ q, in_bounds c q ∧ read c q = Some None) →
     ∃ c' d,
       relocate_agent c x y rs = Some (c', tl rs) ∧
       read c' (x, y) = Some None ∧
       in_bounds c d ∧ read c d = Some None ∧ read c' d = Some (Some a) ∧
       (∀ q, in_bounds c q → q ≠ d → q ≠ (x, y) → read c' q = read c q) ∧
       (∀ q b, in_bounds c q → read c q = Some None →
               read c' q = Some (Some b) → q = d) ∧
       count_cells occupied c' = count_cells occupied c ∧
       (∀ t, count_cells (has_type t) c' = count_cells (has_type t) c)) ∧
  (∀ x y rs,
     in_bounds c (x, y) →
     ∃ c' rs',
       relocate_agent c x y rs = Some (c', rs') ∧
       count_cells occupied c' = count_cells occupied c ∧
       (∀ t, count_cells (has_type t) c' = count_cells (has_type t) c)) ∧
  (∀ max_iterations rs,
     ∃ r,
       run_simulation c max_iterations rs = Some r ∧
       count_cells occupied (run_city r) = count_cells occupied c ∧
       (∀ t, count_cells (has_type t) (run_city r)
             = count_cells (has_type t) c)).
Proof.
  intros Hwf. split_and!.
  - intros x y rs a Hxy Ha Hq.
    destruct (relocate_agent_moves c x y rs (Some a) Hwf Hxy Ha Hq)
      as (c' & d & Hrel & Hd & Hdv & Hwf' & Hcfg & Hmv & Hsrc & Hdst & Hoth & Hcnt).
    assert (d ≠ (x, y)) as Hne by (intros ->; congruence).
    exists c', d. split_and!; try done.
    + by apply Hdst.
    + intros q b Hqb Hqv Hqo.
      destruct (decide (q = d)) as [|Hqd]; [done|]. exfalso.
      destruct (decide (q = (x, y))) as [->|Hqxy]; [congruence|].
      rewrite Hoth in Hqo by done. congruence.
  - intros x y rs Hxy.
    destruct (relocate_agent_total c x y rs Hwf Hxy)
      as (c' & rs' & Hrel & _ & _ & Hcnt & _).
    exists c', rs'. split_and!; done.
  - intros max_iterations rs.
    destruct (simulation_loop_total (range max_iterations) 0 c rs Hwf)
      as (r & Hr & _ & _ & Hcnt & _).
    exists r. split_and!; done.
Qed.

Lemma relocation_invariant_witness :
  well_formed city_line ∧
  ∃ c' d,
    relocate_agent city_line 0 0 [1%nat] = Some (c', []) ∧
    read c' (0, 0) = Some None ∧
    read city_line d = Some None ∧ read c' d = Some red ∧
    count_cells occupied c' = count_cells occupied city_line.
Proof.
  split; [exact well_formed_city_line|].
  destruct (relocation_invariant city_line well_formed_city_line) as (H & _ & _).
  destruct (H 0 0 [1%nat] (mkAgent "R")) as (c' & d & H1 & H2 & H3 & H4 & H5 & H6 & H7 & H8 & H9).
  - literal_bounds.
  - reflexivity.
  - exists (0, 2). split; [literal_bounds|reflexivity].
  - exists c', d. repeat split; assumption.
Defined.

(** * Sweeps and the loop *)

(** C9: in a city of the right shape, let the scan for unhappy agents
    yield [pre ++ p :: post].  Relocating the coordinates of [pre] in turn
    does not raise, and in the city it leaves, the one in which
    [relocate_agent] is called on [p], the cell [p] still holds the agent
    it held when the scan was made.  More generally the relocations of
    [pre] leave in place every agent that is not at a coordinate of
    [pre]. *)
Theorem sweep_sources_stay_occupied c rs pre p post :
  well_formed c →
  unhappy_agents c = Some (pre ++ p :: post) →
  ∃ c1 rs1 a,
    relocate_each pre c rs = Some (c1, rs1) ∧
    relocate_each (pre ++ p :: post) c rs =
      (relocate_agent c1 p.1 p.2 rs1 ≫= λ '(c2, rs2), relocate_each post c2 rs2) ∧
    read c p = Some (Some a) ∧
    read c1 p = Some (Some a) ∧
    (∀ q b, in_bounds c q → q ∉ pre →
            read c q = Some (Some b) → read c1 q = Some (Some b)).
Proof.
  intros Hwf Hun.
  pose proof (NoDup_unhappy_agents c _ Hwf Hun) as Hnd.
  apply NoDup_app in Hnd as (_ & Hdisj & Hnd2).
  assert (p ∉ pre) as Hp by (intros Hin; apply (Hdisj p Hin); by left).
  assert (in_bounds c p ∧ unhappy_at c p = true) as [Hpb Hpu].
  { apply (elem_of_unhappy_agents c _ p Hwf Hun).
    apply elem_of_app. right. by left. }
  destruct (unhappy_at_occupied c p Hpu) as [a Ha].
  destruct (relocate_each_total pre c rs Hwf) as (c1 & rs1 & Hrel & _ & _ & _ & Hoth & _).
  { intros q Hq. apply (elem_of_unhappy_agents c _ q Hwf Hun).
    apply elem_of_app. by left. }
  exists c1, rs1, a. split_and!; try done.
  - rewrite relocate_each_app, Hrel. done.
  - by apply Hoth.
Qed.

Lemma sweep_sources_stay_occupied_witness :
  ∃ c1 rs1 a,
    relocate_each [(0, 0)] city_line [1%nat; 0%nat] = Some (c1, rs1) ∧
    read city_line (0, 1) = Some (Some a) ∧
    read c1 (0, 1) = Some (Some a).
Proof.
  destruct (sweep_sources_stay_occupied city_line [1%nat; 0%nat] [(0, 0)] (0, 1) [])
    as (c1 & rs1 & a & H1 & _ & H3 & H4 & _).
  - exact well_formed_city_line.
  - reflexivity.
  - exists c1, rs1, a. repeat split; assumption.
Defined.

(** C2: in a city [c] of the right shape, one pass through the loop body
    first fixes the list [snapshot] of the coordinates that hold an
    unhappy agent in [c]; the pass is a [break] when the list is empty,
    and otherwise it is the relocation, in turn, of the coordinates of
    that list and of no other.  Whatever the random draws, the
    coordinates that the pass adds to the moved agents are those of
    [snapshot] (none when the grid has no vacant cell). *)
Theorem sweep_classifies_before_relocating c rs :
  well_formed c →
  let snapshot := filter (λ p, unhappy_at c p = true) (coords c) in
  unhappy_agents c = Some snapshot ∧
  (snapshot = [] → sweep c rs = Some None) ∧
  (snapshot ≠ [] →
     ∃ c' rs',
       sweep c rs = Some (Some (c', rs')) ∧
       relocate_each snapshot c rs = Some (c', rs') ∧
       moved_agents c' =
         (if decide (vacant_cells c = Some []) then moved_agents c
          else list_to_set snapshot ∪ moved_agents c)).
Proof.
  intros Hwf snapshot.
  pose proof (unhappy_agents_spec c Hwf) as Hun. fold snapshot in Hun.
  split; [done|]. split.
  - intros E. rewrite sweep_spec by done. fold snapshot. by rewrite E.
  - intros Hne.
    destruct (relocate_each_total snapshot c rs Hwf)
      as (c' & rs' & Hrel & _ & _ & _ & _ & Hmv).
    { intros q Hq. by apply (elem_of_unhappy_agents c snapshot q Hwf Hun). }
    exists c', rs'. split_and!; try done.
    rewrite sweep_spec by done. fold snapshot.
    destruct snapshot; [done|]. by rewrite Hrel.
Qed.

Lemma sweep_classifies_before_relocating_witness :
  unhappy_agents city_line = Some [(0, 0); (0, 1)] ∧
  ∃ c' rs',
    sweep city_line [1%nat; 0%nat] = Some (Some (c', rs')) ∧
    moved_agents c' = list_to_set [(0, 0); (0, 1)] ∪ moved_agents city_line.
Proof.
  destruct (sweep_classifies_before_relocating city_line [1%nat; 0%nat]
              well_formed_city_line) as (H1 & _ & H3).
  split; [exact H1|].
  destruct H3 as (c' & rs' & Hs & _ & Hmv); [discriminate|].
  exists c', rs'. split; [exact Hs|]. exact Hmv.
Defined.

(** C8: from a city of the right shape the loop of [run_simulation]
    always ends, after at most [max_iterations] passes through its body.
    It ends either by [break], in a city where the scan finds no unhappy
    agent, and then a larger budget gives the very same result (no
    further pass is made); or by exhausting its range, after exactly
    [max_iterations] passes.  The first pass whose scan finds no unhappy
    agent ends the loop: when [k] passes, fewer than the budget, have
    relocated agents and left a city without an unhappy agent, the run
    ends by [break] in pass [k + 1], in that city; and a run that
    exhausts its range has found an unhappy agent in every pass. *)
Theorem run_simulation_terminates c max_iterations rs :
  well_formed c →
  ∃ r,
    run_simulation c max_iterations rs = Some r ∧
    (run_iterations r ≤ Z.to_nat max_iterations)%nat ∧
    (run_outcome r = Converged →
       unhappy_agents (run_city r) = Some [] ∧
       ∀ more, max_iterations ≤ more → run_simulation c more rs = Some r) ∧
    (run_outcome r = BudgetExhausted →
       run_iterations r = Z.to_nat max_iterations) ∧
    (∀ k rk, 0 ≤ k < max_iterations →
       run_simulation c k rs = Some rk →
       run_outcome rk = BudgetExhausted →
       unhappy_agents (run_city rk) = Some [] →
       r = mkRun Converged (S (Z.to_nat k)) (run_city rk) (run_rng rk)) ∧
    (run_outcome r = BudgetExhausted →
     ∀ k rk, 0 ≤ k < max_iterations →
       run_simulation c k rs = Some rk →
       run_outcome rk = BudgetExhausted ∧
       unhappy_agents (run_city rk) ≠ Some []).
Proof.
  intros Hwf. unfold run_simulation.
  destruct (simulation_loop_total (range max_iterations) 0 c rs Hwf)
    as (r & Hr & _ & _ & _ & Hit & Hconv & Hbud).
  unfold range in *. rewrite length_seqZ in Hit, Hbud.
  assert (∀ k rk, 0 ≤ k < max_iterations →
            simulation_loop (seqZ 0 k) 0 c rs = Some rk →
            run_outcome rk = BudgetExhausted →
            unhappy_agents (run_city rk) = Some [] →
            r = mkRun Converged (S (Z.to_nat k)) (run_city rk) (run_rng rk))
    as Hbreak.
  { intros k rk Hk Hrk Hout Hun.
    destruct (simulation_loop_exhausted_app _ (seqZ (0 + k) (max_iterations - k)) _ _ _ _
                Hrk Hout) as [_ Happ].
    rewrite <- (seqZ_app 0 k (max_iterations - k)) in Happ by lia.
    replace (k + (max_iterations - k)) with max_iterations in Happ by lia.
    rewrite Happ in Hr. rewrite seqZ_cons in Hr by lia.
    rewrite (simulation_loop_break _ _ _ _ _ Hun) in Hr.
    rewrite length_seqZ in Hr. by injection Hr as <-. }
  exists r. split_and!; try done; [lia| |].
  - intros Hc. split; [by apply Hconv|]. intros more Hmore.
    destruct (decide (max_iterations ≤ 0)) as [Hneg|Hpos].
    + rewrite seqZ_nil in Hr by done. simpl in Hr. injection Hr as <-. done.
    + replace more with (max_iterations + (more - max_iterations)) by lia.
      rewrite seqZ_app by lia. by apply simulation_loop_converged_app.
  - intros Hb k rk Hk Hrk.
    assert (run_outcome rk = BudgetExhausted) as Hout.
    { destruct (run_outcome rk) eqn:Eo; [exfalso|done].
      pose proof (simulation_loop_converged_app _ (seqZ (0 + k) (max_iterations - k))
                    _ _ _ _ Hrk Eo) as Happ.
      rewrite <- (seqZ_app 0 k (max_iterations - k)) in Happ by lia.
      replace (k + (max_iterations - k)) with max_iterations in Happ by lia.
      rewrite Happ in Hr. injection Hr as <-. congruence. }
    split; [done|]. intros Hun.
    rewrite (Hbreak k rk Hk Hrk Hout Hun) in Hb. done.
Qed.

(** With these draws the two agents of [city_line] move apart in the
    first pass, and the second pass ends the run by [break]. *)
Lemma run_simulation_terminates_witness :
  ∃ r,
    run_simulation city_line 5 [1; 0]%nat = Some r ∧
    run_outcome r = Converged ∧
    run_iterations r = 2%nat ∧
    grid (run_city r) = [[blue; None; None; red]].
Proof.
  destruct (run_simulation_terminates city_line 5 [1; 0]%nat
              well_formed_city_line) as (r & Hr & _ & _ & _ & Hbreak & _).
  exists r. split; [exact Hr|].
  rewrite (Hbreak 1 (mkRun BudgetExhausted 1
                       (mkCity 4 1 (1 # 2) (1 # 2) 1 [[blue; None; None; red]]
                          {[ (0, 1); (0, 0) ]}) [])).
  - repeat split.
  - lia.
  - vm_compute. reflexivity.
  - reflexivity.
  - vm_compute. reflexivity.
Defined.

(** * The happiness rule *)

(** ** The neighbours *)

Lemma count_Permutation {A} (f : A → bool) l1 l2 :
  l1 ≡ₚ l2 → count f l1 = count f l2.
Proof. intros H. unfold count. by rewrite H. Qed.

Lemma directions_offsets : directions ≡ₚ offsets_spec.
Proof. vm_compute. solve_Permutation. Qed.

(** [get_neighbors] reads, in the order of [directions], the cells at the
    offsets that fall inside the grid. *)
Lemma neighbors_loop_count c x y dirs :
  well_formed c →
  ∃ ns, neighbors_loop c x y dirs = Some ns ∧
        ∀ P, count P ns =
             count (holds P c)
               (filter (in_bounds c) ((λ d, (x + d.1, y + d.2)) <$> dirs)).
Proof.
  intros Hwf. induction dirs as [|[dx dy] dirs (ns & Hns & IH)].
  - by exists [].
  - simpl. rewrite filter_cons. unfold in_bounds at 1. simpl.
    case_bool_decide as Hb.
    + rewrite decide_True by done. destruct Hb as [Hx Hy].
      destruct (grid_get_is_Some (grid c) _ _ (x + dx) (y + dy) Hwf Hx Hy) as [v Hv].
      rewrite Hv, Hns. simpl. eexists. split; [done|].
      intros P. rewrite !count_cons, IH. f_equal.
      unfold holds, read. simpl. by rewrite Hv.
    + rewrite decide_False by done. by exists ns.
Qed.

Lemma get_neighbors_count c x y :
  well_formed c →
  ∃ ns, get_neighbors c x y = Some ns ∧
        ∀ P, count P ns = count (holds P c) (neighbor_coords_spec c x y).
Proof.
  intros Hwf.
  destruct (neighbors_loop_count c x y directions Hwf) as (ns & Hns & Hc).
  exists ns. split; [done|]. intros P. rewrite Hc.
  apply count_Permutation. unfold neighbor_coords_spec.
  by rewrite directions_offsets.
Qed.

Lemma ratio_div (s t : nat) :
  t ≠ 0%nat →
  (ratio s t == inject_Z (Z.of_nat s) / inject_Z (Z.of_nat t))%Q.
Proof.
  intros Ht. destruct t as [|t]; [done|].
  unfold ratio, Qeq, Qdiv, Qmult, Qinv, inject_Z. simpl.
  rewrite <- Pos.of_nat_succ. lia.
Qed.

(** The counts of the specification are the counts that [is_happy]
    makes over the list of neighbours. *)
Lemma count_same_category c a l :
  count (holds (same_type a) c) l = length (filter (same_category_at c a) l).
Proof.
  unfold count. f_equal. apply list_filter_iff. intros q.
  unfold holds, same_category_at.
  destruct (read c q) as [[b|]|]; simpl.
  - rewrite bool_decide_eq_true. split; [intros E; by exists b|].
    by intros (b' & [= <-] & E).
  - split; [done|]. by intros (b' & [=] & _).
  - split; [done|]. by intros (b' & [=] & _).
Qed.

Lemma count_occupied_at c l :
  count (holds occupied c) l = length (filter (occupied_at c) l).
Proof.
  unfold count. f_equal. apply list_filter_iff. intros q.
  unfold holds, occupied_at.
  destruct (read c q) as [[b|]|]; simpl.
  - split; [intros _; by exists b|done].
  - split; [done|]. by intros (b' & [=]).
  - split; [done|]. by intros (b' & [=]).
Qed.

(** C3: in a city of the right shape and for a cell [(x, y)] of the grid,
    [is_happy] returns normally, and
    - it returns [True] when the cell is vacant;
    - it returns [True] when the cell holds an agent and none of its
      neighbour cells is occupied;
    - otherwise it returns [True] exactly when the float quotient
      [similar / occupied_neighbors], the quotient rounded to the nearest
      float, is at least [discrimination_rate]; in particular it returns
      [True] when the rate is a float and the exact quotient is at least
      the rate,
    where the neighbour cells are the cells of the grid at the eight
    offsets around [(x, y)], [similar] counts those holding an agent of
    the same type and [occupied_neighbors] those holding any agent. *)
Theorem is_happy_spec c x y :
  well_formed c → in_bounds c (x, y) →
  (read c (x, y) = Some None → is_happy c x y = Some true) ∧
  (∀ a, read c (x, y) = Some (Some a) →
        occupied_neighbors_spec c x y = 0%nat →
        is_happy c x y = Some true) ∧
  (∀ a, read c (x, y) = Some (Some a) →
        occupied_neighbors_spec c x y ≠ 0%nat →
        ∃ b, is_happy c x y = Some b ∧
             (b = true ↔
              (discrimination_rate c
               <= round64 (inject_Z (Z.of_nat (similar_spec c a x y))
                           / inject_Z (Z.of_nat (occupied_neighbors_spec c x y))))%Q) ∧
             (is_float (discrimination_rate c) →
              (discrimination_rate c
               <= inject_Z (Z.of_nat (similar_spec c a x y))
                  / inject_Z (Z.of_nat (occupied_neighbors_spec c x y)))%Q →
              b = true)).
Proof.
  intros Hwf Hxy.
  destruct (get_neighbors_count c x y Hwf) as (ns & Hns & Hc).
  unfold occupied_neighbors_spec, similar_spec.
  rewrite <- count_occupied_at.
  unfold is_happy, read. simpl.
  split_and!.
  - by intros ->.
  - intros a -> H0. simpl. rewrite Hns. simpl. by rewrite Hc, H0.
  - intros a -> H0. simpl. rewrite Hns. simpl. rewrite !Hc.
    rewrite <- count_same_category.
    destruct (Nat.eqb_spec (count (holds occupied c) (neighbor_coords_spec c x y)) 0);
      [done|].
    eexists. split; [done|].
    assert (int_div (count (holds (same_type a) c) (neighbor_coords_spec c x y))
                    (count (holds occupied c) (neighbor_coords_spec c x y))
            == round64 (inject_Z (Z.of_nat (count (holds (same_type a) c)
                                              (neighbor_coords_spec c x y)))
                        / inject_Z (Z.of_nat (count (holds occupied c)
                                                (neighbor_coords_spec c x y)))))%Q
      as Hq.
    { unfold int_div. apply round64_comp. by apply ratio_div. }
    split.
    + rewrite Qle_bool_iff. by rewrite Hq.
    + intros Hfloat Hle. unfold is_float in Hfloat.
      apply Qle_bool_iff. rewrite Hq, <- Hfloat.
      by apply round64_mono.
Qed.

(** Five neighbours of its type among seven satisfy the agent in the
    middle of [city_boundary], whose rate is the float quotient
    [5 / 7]. *)
Lemma is_happy_spec_witness :
  well_formed city_boundary ∧ in_bounds city_boundary (1, 1) ∧
  is_happy city_boundary 1 1 = Some true.
Proof.
  assert (well_formed city_boundary) as Hwf by literal_shape.
  assert (in_bounds city_boundary (1, 1)) as Hb by literal_bounds.
  split; [exact Hwf|]. split; [exact Hb|].
  destruct (is_happy_spec city_boundary 1 1 Hwf Hb) as (_ & _ & H).
  destruct (H (mkAgent "R")) as (b & Hhappy & Hiff & _).
  - reflexivity.
  - vm_compute. discriminate.
  - rewrite Hhappy. f_equal. apply Hiff. vm_compute. discriminate.
Defined.

(** The exact quotient does not decide the answer: the agent in the
    middle of [city_boundary] is happy, with five neighbours of its type
    among seven occupied ones, although five sevenths is below the rate,
    the float as well as the decimal [0.7142857142857143] that denotes
    it. *)
Lemma is_happy_exact_quotient_counterexample :
  is_happy city_boundary 1 1 = Some true ∧
  similar_spec city_boundary (mkAgent "R") 1 1 = 5%nat ∧
  occupied_neighbors_spec city_boundary 1 1 = 7%nat ∧
  ¬ (discrimination_rate city_boundary
     <= inject_Z (Z.of_nat (similar_spec city_boundary (mkAgent "R") 1 1))
        / inject_Z (Z.of_nat (occupied_neighbors_spec city_boundary 1 1)))%Q ∧
  ¬ (7142857142857143 # 10000000000000000
     <= inject_Z (Z.of_nat (similar_spec city_boundary (mkAgent "R") 1 1))
        / inject_Z (Z.of_nat (occupied_neighbors_spec city_boundary 1 1)))%Q.
Proof.
  split; [vm_compute; reflexivity|].
  split; [vm_compute; reflexivity|].
  split; [vm_compute; reflexivity|].
  split; apply Qlt_not_le; vm_compute; reflexivity.
Qed.

(** * The segregation metric *)

Lemma count_le_mono {A} (f g : A → bool) l :
  (∀ q, q ∈ l → f q = true → g q = true) → (count f l ≤ count g l)%nat.
Proof.
  induction l as [|a l IH]; intros H; [done|].
  rewrite !count_cons.
  assert (count f l ≤ count g l)%nat by (apply IH; intros; apply H; [by right|done]).
  assert (f a = true → g a = true) by (apply H; by left).
  destruct (f a), (g a); simpl; lia.
Qed.

Lemma segregation_loop_spec c ps t h :
  well_formed c → (∀ p, p ∈ ps → in_bounds c p) →
  segregation_loop c (t, h) ps =
    Some ((t + count (holds occupied c) ps)%nat,
          (h + count (happy_at c) ps)%nat).
Proof.
  intros Hwf. revert t h. induction ps as [|p ps IH]; intros t h Hps.
  - simpl. by rewrite !count_nil, !Nat.add_0_r.
  - assert (in_bounds c p) as Hp by (apply Hps; by left).
    simpl. unfold segregation_body. rewrite !count_cons.
    destruct (read_is_Some c p Hwf Hp) as [v Hv].
    unfold happy_at at 1. rewrite !(holds_read occupied c p v Hv).
    unfold read in Hv. rewrite Hv. simpl.
    destruct v as [a|]; simpl.
    + destruct (is_happy_is_Some c p Hwf Hp) as [hb Hhb]. rewrite Hhb. simpl.
      rewrite IH by (intros; apply Hps; by right).
      destruct hb; simpl; do 2 f_equal; lia.
    + rewrite IH by (intros; apply Hps; by right). done.
Qed.

Lemma happy_count_le_total c : (happy_count_spec c ≤ total_occupied_spec c)%nat.
Proof.
  apply count_le_mono. intros q _. unfold happy_at.
  by intros [? _]%andb_prop.
Qed.

Lemma ratio_bounds (s t : nat) :
  (s ≤ t)%nat → t ≠ 0%nat → (0 <= ratio s t <= 1)%Q.
Proof.
  intros Hst Ht. destruct t as [|t]; [done|].
  unfold ratio, Qle. simpl. rewrite <- Pos.of_nat_succ. lia.
Qed.




(** * Grid initialization *)

(** ** The shuffle *)

Lemma swap_Permutation {A} (x : list A) i j : swap x i j ≡ₚ x.
Proof.
  unfold swap.
  destruct (x !! i) as [a|] eqn:Hi; [|done].
  destruct (x !! j) as [b|] eqn:Hj; [|done].
  pose proof (lookup_lt_Some _ _ _ Hi) as Hli.
  pose proof (lookup_lt_Some _ _ _ Hj) as Hlj.
  apply Permutation_inj. split; [by rewrite !length_insert|].
  exists (λ k, if decide (k = i) then j else if decide (k = j) then i else k).
  split.
  - intros k1 k2. repeat case_decide; intros; subst; congruence.
  - intros k. rewrite !list_lookup_insert, !length_insert.
    repeat case_decide; subst; try done; try lia.
    match goal with H : _ = _ ∧ _ |- _ => destruct H as [-> _] end.
    congruence.
Qed.

Lemma shuffle_loop_Permutation {A} indices (x : list A) rs :
  (shuffle_loop indices x rs).1 ≡ₚ x.
Proof.
  revert x rs. induction indices as [|i indices IH]; intros x rs; [done|].
  simpl. rewrite IH. apply swap_Permutation.
Qed.

Lemma random_shuffle_Permutation {A} (x : list A) rs :
  (random_shuffle x rs).1 ≡ₚ x.
Proof. apply shuffle_loop_Permutation. Qed.

(** ** Filling the grid *)

Lemma py_pop_reverse_cons {A} (a : A) s :
  py_pop (reverse (a :: s)) = Some (a, reverse s).
Proof. unfold py_pop. by rewrite reverse_involutive. Qed.

(** The loop pops one element for each coordinate: the cells of [ps] end
    up holding, in order, the elements of the list from its end. *)
Lemma fill_loop_spec h w ps g s :
  shape g h w → NoDup ps →
  (∀ p, p ∈ ps → (0 ≤ p.1 < h) ∧ (0 ≤ p.2 < w)) →
  (length ps ≤ length s)%nat →
  ∃ g',
    fill_loop ps g (reverse s) = Some (g', reverse (drop (length ps) s)) ∧
    shape g' h w ∧
    (∀ q, (0 ≤ q.1 < h) ∧ (0 ≤ q.2 < w) → q ∉ ps →
          grid_get g' q.1 q.2 = grid_get g q.1 q.2) ∧
    Forall2 (λ p a, grid_get g' p.1 p.2 = Some a) ps (take (length ps) s).
Proof.
  revert g s. induction ps as [|p ps IH]; intros g s Hs Hnd Hps Hlen.
  - exists g. simpl. rewrite drop_0. by split_and!.
  - destruct s as [|a s]; [simpl in Hlen; lia|].
    apply NoDup_cons in Hnd as [Hp Hnd].
    assert ((0 ≤ p.1 < h) ∧ (0 ≤ p.2 < w)) as [Hp1 Hp2] by (apply Hps; by left).
    destruct (grid_set_is_Some g h w p.1 p.2 a Hs Hp1 Hp2) as [g1 Hg1].
    pose proof (grid_set_shape _ _ _ _ _ _ _ Hs Hg1) as Hs1.
    destruct (IH g1 s Hs1 Hnd) as (g' & Hfill & Hs' & Hoth & Hall).
    { intros q Hq. apply Hps. by right. }
    { simpl in Hlen. lia. }
    exists g'. split_and!; try done.
    + cbn [fill_loop]. rewrite py_pop_reverse_cons. simpl. rewrite Hg1. simpl.
      exact Hfill.
    + intros q [Hq1 Hq2] Hq. apply not_elem_of_cons in Hq as [Hne Hq].
      rewrite Hoth by done.
      apply (grid_get_set_ne g h w p.1 p.2 a g1 q.1 q.2 Hs); try done.
      by destruct q, p.
    + simpl. constructor; [|done].
      rewrite Hoth by done. by apply (grid_get_set_eq g h w p.1 p.2 a g1 Hs).
Qed.

Lemma count_Forall2 P c ps (l : list cell) :
  Forall2 (λ p a, read c p = Some a) ps l →
  count (holds P c) ps = count P l.
Proof.
  induction 1 as [|p a ps l Hp _ IH]; [done|].
  by rewrite !count_cons, IH, (holds_read P c p a Hp).
Qed.

Lemma count_replicate {A} (f : A → bool) n a :
  count f (replicate n a) = if f a then n else 0%nat.
Proof.
  induction n as [|n IH]; simpl; [by destruct (f a)|].
  rewrite count_cons, IH. by destruct (f a).
Qed.

Lemma length_bind_const {A B} (f : A → list B) k (l : list A) :
  (∀ x, length (f x) = k) → length (l ≫= f) = (length l * k)%nat.
Proof.
  intros Hf. induction l as [|x l IH]; [done|].
  change ((x :: l) ≫= f) with (f x ++ (l ≫= f)).
  rewrite length_app, IH, Hf. simpl. lia.
Qed.

Lemma length_coords c :
  length (coords c) = (Z.to_nat (height c) * Z.to_nat (width c))%nat.
Proof.
  unfold coords, range.
  rewrite (length_bind_const _ (Z.to_nat (width c))), length_seqZ; [done|].
  intros i. rewrite (length_bind_const _ 1%nat), length_seqZ; [lia|done].
Qed.

Lemma np_full_shape h w g : np_full h w = Some g → shape g h w.
Proof.
  unfold np_full. case_bool_decide as Hb; [|done]. intros [= <-].
  destruct Hb. split.
  - rewrite length_replicate. lia.
  - apply Forall_replicate. rewrite length_replicate. lia.
Qed.

(** ** Truncation of a rate applied to a count *)

(** [int(n * q)] for an integer [n] below [2 ** 53] and a rate [q]
    between [0] and [1]: the floor of the float product, between [0] and
    [n]. *)
Lemma int_product n q :
  0 ≤ n < 2 ^ 53 → (0 <= q <= 1)%Q →
  py_int <$> int_times_float n q
  = Some (Qfloor (round64 (inject_Z n * round64 q))) ∧
  0 ≤ Qfloor (round64 (inject_Z n * round64 q)) ≤ n.
Proof.
  intros Hn Hq.
  destruct (int_times_float_rate n q Hn Hq) as (p & -> & Hp & Hb).
  simpl. rewrite py_int_floor by apply Hb.
  rewrite (Qfloor_comp _ _ Hp). split; [done|].
  apply Qfloor_bounds. by rewrite <- Hp.
Qed.

(** ** The constructor *)

(** On a grid of the right shape with enough elements to pop,
    [initialize_grid] fills every cell; the filled grid holds, for every
    property of cells, as many cells with the property as the list built
    before the shuffle has entries with it. *)
Lemma initialize_grid_counts c rs agents :
  well_formed c →
  initial_agents c = Some agents →
  length agents = length (coords c) →
  ∃ c' rs',
    initialize_grid c rs = Some (c', rs') ∧
    well_formed c' ∧ same_config c c' ∧ moved_agents c' = moved_agents c ∧
    ∀ P, count_cells P c' = count P agents.
Proof.
  intros Hwf Hinit Hlen. unfold initialize_grid. rewrite Hinit.
  cbn [mbind option_bind].
  pose proof (random_shuffle_Permutation agents rs) as Hperm.
  destruct (random_shuffle agents rs) as [shuffled rs'].
  simpl in Hperm.
  assert (length (reverse shuffled) = length (coords c)) as Hlen'.
  { by rewrite length_reverse, Hperm. }
  destruct (fill_loop_spec (height c) (width c) (coords c) (grid c) (reverse shuffled))
    as (g' & Hfill & Hs' & _ & Hall); [done|apply NoDup_coords| |lia|].
  { intros p Hp. by apply elem_of_coords in Hp. }
  rewrite reverse_involutive in Hfill. rewrite Hfill. simpl.
  eexists _, rs'. split; [done|]. split_and!; try done.
  intros P. unfold count_cells.
  change (coords (set_grid c g')) with (coords c).
  rewrite (count_Forall2 P (set_grid c g') (coords c) (reverse shuffled)).
  - apply count_Permutation. by rewrite reverse_Permutation.
  - rewrite <- Hlen', firstn_all in Hall. exact Hall.
Qed.

(** The list of agents depends on the dimensions and the two first
    rates only. *)
Lemma initial_agents_config c c' :
  same_config c c' → initial_agents c' = initial_agents c.
Proof.
  intros (Ew & Eh & Eocc & Esplit & _).
  unfold initial_agents, red_agents, blue_agents, vacant_count, red_agents,
    occupied_cells, total_cells.
  by rewrite Ew, Eh, Eocc, Esplit.
Qed.

(** C4: for non-negative dimensions with fewer than [2 ** 53] cells and
    rates between [0] and [1], the constructor returns normally a city of
    the right shape in which the number of occupied cells is the floor of
    the float product [width * height * occupation], the product rounded
    to the nearest float, the number of red agents is the floor of the
    float product of that number and the split, the number of blue agents
    is the number of occupied cells minus that, the number of vacant
    cells is the number of cells minus the number of occupied cells, and
    the list that is shuffled and placed has as many entries as the grid
    has cells, [width * height].  A rate enters its product as the float
    it denotes, [round64 occ], which is [occ] when [occ] is a float. *)
Theorem initialize_grid_placement w h occ split rate rs :
  0 ≤ w → 0 ≤ h → w * h < 2 ^ 53 →
  (0 <= occ <= 1)%Q → (0 <= split <= 1)%Q →
  let total := w * h in
  let occupied_count := Qfloor (round64 (inject_Z total * round64 occ)) in
  let count_a :=
    Qfloor (round64 (inject_Z occupied_count * round64 split)) in
  ∃ c rs' agents,
    City_init w h occ split rate rs = Some (c, rs') ∧
    well_formed c ∧ width c = w ∧ height c = h ∧
    0 ≤ count_a ≤ occupied_count ∧ occupied_count ≤ total ∧
    Z.of_nat (count_cells (has_type "R") c) = count_a ∧
    Z.of_nat (count_cells (has_type "B") c) = occupied_count - count_a ∧
    Z.of_nat (count_cells vacant c) = total - occupied_count ∧
    Z.of_nat (count_cells occupied c) = occupied_count ∧
    initial_agents c = Some agents ∧
    Z.of_nat (length agents) = total ∧
    Z.of_nat (length (coords c)) = total.
Proof.
  intros Hw Hh Hsize Hocc Hsplit total occupied_count count_a.
  assert (0 ≤ total) as Htot by (unfold total; nia).
  destruct (int_product total occ ltac:(done) Hocc) as [Epo Ho].
  fold occupied_count in Epo, Ho.
  destruct (int_product occupied_count split ltac:(lia) Hsplit) as [Epa Ha].
  fold count_a in Epa, Ha.
  unfold City_init.
  destruct (np_full h w) as [g0|] eqn:Hfull.
  2: { unfold np_full in Hfull. by rewrite bool_decide_eq_true_2 in Hfull. }
  apply np_full_shape in Hfull. simpl.
  set (c0 := mkCity w h occ split rate g0 ∅).
  assert (occupied_cells c0 = Some occupied_count) as Eo by exact Epo.
  assert (red_agents c0 = Some count_a) as Ea.
  { unfold red_agents. rewrite Eo. exact Epa. }
  set (agents := replicate (Z.to_nat count_a) (Some (mkAgent "R"))
          ++ replicate (Z.to_nat (occupied_count - count_a)) (Some (mkAgent "B"))
          ++ replicate (Z.to_nat (total - occupied_count)) None).
  assert (initial_agents c0 = Some agents) as Einit.
  { unfold initial_agents, blue_agents, vacant_count. by rewrite Ea, Eo. }
  assert (length (coords c0) = Z.to_nat total) as Hlc.
  { rewrite length_coords. simpl. unfold total. lia. }
  assert (length agents = Z.to_nat total) as Hli.
  { unfold agents. rewrite !length_app, !length_replicate. lia. }
  destruct (initialize_grid_counts c0 rs agents)
    as (c & rs' & Hinit & Hwf & Hcfg & _ & Hcnt); [done|done|congruence|].
  pose proof Hcfg as (Ew & Eh & _).
  exists c, rs', agents. split; [done|]. split; [done|]. split; [done|].
  split; [done|]. split; [done|]. split; [lia|].
  rewrite (initial_agents_config c0 c Hcfg), Einit.
  rewrite !Hcnt. unfold agents at 1 2 3 4.
  rewrite !count_app, !count_replicate. simpl.
  rewrite Hli, (same_config_coords c0 c Hcfg), Hlc.
  split_and!; try done; lia.
Qed.

(** The city of the test suite, [City(5, 5, 0.8, 0.5, 0.4)]. *)
Lemma initialize_grid_placement_witness :
  ∃ c rs',
    City_init 5 5 (float_literal (8 # 10)) (1 # 2) (float_literal (4 # 10))
      [3; 1; 4; 1; 5]%nat = Some (c, rs') ∧
    count_cells (has_type "R") c = 10%nat ∧
    count_cells (has_type "B") c = 10%nat ∧
    count_cells vacant c = 5%nat.
Proof.
  destruct (initialize_grid_placement 5 5 (float_literal (8 # 10)) (1 # 2)
              (float_literal (4 # 10)) [3; 1; 4; 1; 5]%nat)
    as (c & rs' & agents & H1 & _ & _ & _ & _ & _ & H5 & H6 & H7 & _).
  - lia.
  - lia.
  - reflexivity.
  - split; vm_compute; discriminate.
  - split; discriminate.
  - exists c, rs'. split; [exact H1|].
    split; [apply Nat2Z.inj; rewrite H5; vm_compute; reflexivity|].
    split; [apply Nat2Z.inj; rewrite H6; vm_compute; reflexivity|].
    apply Nat2Z.inj; rewrite H7; vm_compute; reflexivity.
Defined.

(** The counts are not the floors of the exact products.  With ten cells
    and the occupation rate [0.69999999999999995], which is the float
    [0.7], seven cells are occupied, because the float product
    [10 * 0.7] is [7.0], while the floor of ten times the rate is six,
    for the decimal as for the float.  With fifty cells and the rate
    [0.58], twenty-eight cells are occupied, because the float product
    is [28.999999999999996], while the floor of fifty times fifty-eight
    hundredths is twenty-nine. *)
Lemma initialize_grid_exact_floor_counterexample :
  (∃ c rs',
     City_init 10 1 (float_literal (69999999999999995 # 100000000000000000))
       1 (1 # 2) [] = Some (c, rs') ∧
     count_cells (has_type "R") c = 7%nat ∧
     Qfloor (inject_Z (Qfloor (inject_Z (10 * 1)
                               * (69999999999999995 # 100000000000000000))) * 1)
     = 6 ∧
     Qfloor (inject_Z (Qfloor (inject_Z (10 * 1) * occupation_percentage c)) * 1)
     = 6) ∧
  (∃ c rs',
     City_init 10 5 (float_literal (58 # 100)) 1 (1 # 2) [] = Some (c, rs') ∧
     count_cells (has_type "R") c = 28%nat ∧
     Qfloor (inject_Z (Qfloor (inject_Z (10 * 5) * (58 # 100))) * 1) = 29).
Proof.
  split; do 2 eexists; (split; [vm_compute; reflexivity|]);
    repeat split; vm_compute; reflexivity.
Qed.

(** * The set of moved agents *)

(** Relocations of one sweep are decided by the scan made before it: with
    these draws the red agent of [city_line] moves away first, which
    leaves the blue agent without any neighbour and therefore happy, and
    the blue agent is relocated all the same. *)
Example sweep_relocates_agent_made_happy :
  ∃ c1 c2,
    relocate_agent city_line 0 0 [1; 0]%nat = Some (c1, [0%nat]) ∧
    grid c1 = [[None; blue; None; red]] ∧
    is_happy c1 0 1 = Some true ∧
    sweep city_line [1; 0]%nat = Some (Some (c2, [])) ∧
    grid c2 = [[blue; None; None; red]].
Proof. do 2 eexists. repeat split; reflexivity. Qed.

(** C1: the constructor can produce [city_line], a row of four cells with
    a red agent at [(0, 0)], a blue agent at [(0, 1)] and rate [1].  In a
    run of two iterations from it the red agent is relocated twice, from
    [(0, 0)] to [(0, 2)] and from [(0, 2)] back to [(0, 0)], and so is the
    blue agent.  At the end [moved_agents] holds the source coordinate of
    each of the four relocations: two entries for the red agent, one of
    them the cell it moved to in between, and four entries in a city of
    two agents. *)
Theorem moved_agents_holds_every_source :
  City_init 4 1 (1 # 2) (1 # 2) 1 [0; 1; 0; 0; 1; 0; 0]%nat
    = Some (city_line, [0; 1; 0; 0]%nat) ∧
  ∃ c1 c2 c3 c4,
    relocate_agent city_line 0 0 [0; 1; 0; 0]%nat = Some (c1, [1; 0; 0]%nat) ∧
    grid c1 = [[None; blue; red; None]] ∧
    relocate_agent c1 0 1 [1; 0; 0]%nat = Some (c2, [0; 0]%nat) ∧
    grid c2 = [[None; None; red; blue]] ∧
    sweep city_line [0; 1; 0; 0]%nat = Some (Some (c2, [0; 0]%nat)) ∧
    relocate_agent c2 0 2 [0; 0]%nat = Some (c3, [0%nat]) ∧
    grid c3 = [[red; None; None; blue]] ∧
    relocate_agent c3 0 3 [0%nat] = Some (c4, []) ∧
    grid c4 = [[red; blue; None; None]] ∧
    sweep c2 [0; 0]%nat = Some (Some (c4, [])) ∧
    run_simulation city_line 2 [0; 1; 0; 0]%nat
      = Some (mkRun BudgetExhausted 2 c4 []) ∧
    moved_agents c4 = {[ (0, 0); (0, 1); (0, 2); (0, 3) ]} ∧
    size (moved_agents c4) = 4%nat ∧
    count_cells occupied c4 = 2%nat.
Proof.
  split; [reflexivity|]. do 4 eexists.
  repeat split; try reflexivity; vm_compute; reflexivity.
Qed.

(** * Further properties *)

(** ** The neighbourhood *)

Lemma neighbors_loop_reads c x y dirs :
  well_formed c →
  ∃ ns, neighbors_loop c x y dirs = Some ns ∧
        Forall2 (λ q v, read c q = Some v)
          (filter (in_bounds c) ((λ d, (x + d.1, y + d.2)) <$> dirs)) ns.
Proof.
  intros Hwf. induction dirs as [|[dx dy] dirs (ns & Hns & IH)].
  - exists []. split; [done|]. constructor.
  - simpl. rewrite filter_cons. unfold in_bounds at 1. simpl.
    case_bool_decide as Hb.
    + rewrite decide_True by done. destruct Hb as [Hx Hy].
      destruct (grid_get_is_Some (grid c) _ _ (x + dx) (y + dy) Hwf Hx Hy) as [v Hv].
      rewrite Hv, Hns. simpl. eexists. split; [done|].
      constructor; done.
    + rewrite decide_False by done. by exists ns.
Qed.

Lemma elem_of_directions d :
  d ∈ directions ↔ (-1 ≤ d.1 ≤ 1) ∧ (-1 ≤ d.2 ≤ 1) ∧ d ≠ (0, 0).
Proof.
  destruct d as [dx dy]. unfold directions. rewrite !elem_of_cons, elem_of_nil.
  simpl. split.
  - intros H. repeat destruct H as [H|H]; try done; injection H as -> ->;
      (split; [lia|split; [lia|done]]).
  - intros (H1 & H2 & Hne).
    assert (dx = -1 ∨ dx = 0 ∨ dx = 1) as Hx by lia.
    assert (dy = -1 ∨ dy = 0 ∨ dy = 1) as Hy by lia.
    destruct Hx as [-> | [-> | ->]]; destruct Hy as [-> | [-> | ->]];
      try done; tauto.
Qed.

Lemma elem_of_neighbor_coords c x y q :
  q ∈ neighbor_coords c x y ↔
  in_bounds c q ∧ q ≠ (x, y) ∧ (-1 ≤ q.1 - x ≤ 1) ∧ (-1 ≤ q.2 - y ≤ 1).
Proof.
  unfold neighbor_coords. rewrite list_elem_of_filter, list_elem_of_fmap. split.
  - intros (Hb & d & -> & Hd). apply elem_of_directions in Hd as (H1 & H2 & Hne).
    split; [done|]. simpl. split; [|lia].
    intros [= E1 E2]. apply Hne. destruct d as [dx dy]. simpl in *. f_equal; lia.
  - intros (Hb & Hne & H1 & H2). split; [done|].
    exists (q.1 - x, q.2 - y). split.
    + destruct q as [q1 q2]. simpl. f_equal; lia.
    + apply elem_of_directions. simpl. split; [lia|]. split; [lia|].
      intros [= E1 E2]. apply Hne. destruct q as [q1 q2]. simpl in *. f_equal; lia.
Qed.

Lemma NoDup_directions : NoDup directions.
Proof. unfold directions. by apply (bool_decide_unpack _). Qed.

Lemma NoDup_neighbor_coords c x y : NoDup (neighbor_coords c x y).
Proof.
  apply NoDup_filter, NoDup_fmap_2_strong; [|apply NoDup_directions].
  intros [a1 a2] [b1 b2] _ _ [= E1 E2]. f_equal; lia.
Qed.

(** X1: on a city of the right shape [get_neighbors] never raises, also
    for coordinates outside the grid; it returns at most eight cells, the
    contents of the cells of [neighbor_coords] in that order. *)
Theorem get_neighbors_reads c x y :
  well_formed c →
  ∃ ns, get_neighbors c x y = Some ns ∧
        Forall2 (λ q v, read c q = Some v) (neighbor_coords c x y) ns ∧
        (length ns ≤ 8)%nat.
Proof.
  intros Hwf.
  destruct (neighbors_loop_reads c x y directions Hwf) as (ns & Hns & Hall).
  exists ns. split; [done|]. split; [done|].
  rewrite <- (Forall2_length _ _ _ Hall). unfold neighbor_coords.
  etrans; [apply length_filter|]. by rewrite length_fmap.
Qed.

Lemma get_neighbors_reads_witness :
  ∃ ns, get_neighbors city_line 0 1 = Some ns ∧ (length ns ≤ 8)%nat.
Proof.
  destruct (get_neighbors_reads city_line 0 1 well_formed_city_line)
    as (ns & H1 & _ & H3).
  exists ns. split; [exact H1|exact H3].
Defined.

(** X2: the cells that [get_neighbors] reads are exactly the cells of the
    grid, other than [(x, y)] itself, whose row and column differ from
    [x] and [y] by at most one: there is no wrap-around at the borders.
    No cell is read twice, and being a neighbour is symmetric. *)
Theorem neighbor_coords_moore c x y :
  (∀ q, q ∈ neighbor_coords c x y ↔
        in_bounds c q ∧ q ≠ (x, y) ∧
        (-1 ≤ q.1 - x ≤ 1) ∧ (-1 ≤ q.2 - y ≤ 1)) ∧
  NoDup (neighbor_coords c x y) ∧
  (∀ q, in_bounds c (x, y) →
        q ∈ neighbor_coords c x y → (x, y) ∈ neighbor_coords c q.1 q.2).
Proof.
  split; [apply elem_of_neighbor_coords|]. split; [apply NoDup_neighbor_coords|].
  intros q Hxy Hq. apply elem_of_neighbor_coords in Hq as (Hb & Hne & H1 & H2).
  apply elem_of_neighbor_coords. simpl. split; [done|].
  split; [|lia]. intros E. apply Hne. destruct q. simpl in *. congruence.
Qed.

Lemma neighbor_coords_moore_witness :
  NoDup (neighbor_coords city_line 0 1) ∧
  (0, 1) ∈ neighbor_coords city_line 0 0.
Proof.
  destruct (neighbor_coords_moore city_line 0 1) as (_ & H2 & H3).
  split; [exact H2|]. apply (H3 (0, 0)).
  - literal_bounds.
  - vm_compute. left.
Defined.

(** Deciding the bounds check of one offset after the other. *)
Ltac bounds_check_step :=
  first [ rewrite filter_cons_True by (unfold in_bounds; simpl; lia)
        | rewrite filter_cons_False by (unfold in_bounds; simpl; lia) ].

Lemma length_neighbor_coords c x y :
  in_bounds c (x, y) → 2 ≤ height c → 2 ≤ width c →
  length (neighbor_coords c x y) =
    if decide (x = 0 ∨ x = height c - 1)
    then (if decide (y = 0 ∨ y = width c - 1) then 3%nat else 5%nat)
    else (if decide (y = 0 ∨ y = width c - 1) then 5%nat else 8%nat).
Proof.
  intros [Hx Hy] Hh Hw. simpl in Hx, Hy.
  unfold neighbor_coords, directions. simpl fmap.
  destruct (decide (x = 0 ∨ x = height c - 1)) as [[Ex|Ex]|Ex];
    destruct (decide (y = 0 ∨ y = width c - 1)) as [[Ey|Ey]|Ey];
    repeat bounds_check_step; reflexivity.
Qed.

(** X3: in a city of the right shape with at least two rows and two
    columns, [get_neighbors] returns three cells for a corner of the grid,
    five for another cell of its border and eight for an inner cell. *)
Theorem get_neighbors_length c x y :
  well_formed c → in_bounds c (x, y) → 2 ≤ height c → 2 ≤ width c →
  ∃ ns, get_neighbors c x y = Some ns ∧
        length ns =
          if decide (x = 0 ∨ x = height c - 1)
          then (if decide (y = 0 ∨ y = width c - 1) then 3%nat else 5%nat)
          else (if decide (y = 0 ∨ y = width c - 1) then 5%nat else 8%nat).
Proof.
  intros Hwf Hxy Hh Hw.
  destruct (neighbors_loop_reads c x y directions Hwf) as (ns & Hns & Hall).
  exists ns. split; [done|].
  rewrite <- (Forall2_length _ _ _ Hall). by apply length_neighbor_coords.
Qed.

Lemma well_formed_city_split : well_formed city_split.
Proof. literal_shape. Qed.

Lemma get_neighbors_length_witness :
  ∃ ns, get_neighbors city_split 0 2 = Some ns ∧ length ns = 5%nat.
Proof.
  destruct (get_neighbors_length city_split 0 2 well_formed_city_split)
    as (ns & H1 & H2).
  - literal_bounds.
  - simpl. lia.
  - simpl. lia.
  - exists ns. split; [exact H1|exact H2].
Defined.

(** ** The happiness rule and the rate *)

Lemma neighbors_loop_rate c r x y dirs :
  neighbors_loop (set_discrimination_rate c r) x y dirs = neighbors_loop c x y dirs.
Proof.
  induction dirs as [|[dx dy] dirs IH]; [done|]. simpl. by rewrite IH.
Qed.

Lemma same_type_occupied a n : same_type a n = true → occupied n = true.
Proof. by destruct n. Qed.

(** X4: raising the rate never makes an agent happy: a cell that
    [is_happy] accepts at a rate is accepted at every lower rate. *)
Theorem is_happy_monotone c x y r r' :
  (r <= r')%Q →
  is_happy (set_discrimination_rate c r') x y = Some true →
  is_happy (set_discrimination_rate c r) x y = Some true.
Proof.
  intros Hr. unfold is_happy, get_neighbors. rewrite !neighbors_loop_rate.
  generalize (neighbors_loop c x y directions). intros nl. simpl.
  destruct (grid_get (grid c) x y) as [[a|]|]; simpl; [|done..].
  destruct nl as [ns|]; simpl; [|done].
  destruct (count occupied ns =? 0)%nat; [done|].
  intros [= H]. f_equal. apply Qle_bool_iff in H. apply Qle_bool_iff.
  by apply (Qle_trans _ r').
Qed.

Lemma is_happy_monotone_witness :
  is_happy (set_discrimination_rate (city_three 1) (float_literal (4 # 10))) 1 1
  = Some true.
Proof.
  apply (is_happy_monotone (city_three 1) 1 1 (float_literal (4 # 10)) (1 # 2)).
  - vm_compute. discriminate.
  - reflexivity.
Defined.

(** X5: with a rate of zero or less every cell of a city of the right
    shape is happy, so a run with a budget of at least one pass ends by
    [break] in its first pass, with the city and the random generator
    untouched. *)
Theorem nonpositive_rate_converges c :
  well_formed c → (discrimination_rate c <= 0)%Q →
  (∀ x y, in_bounds c (x, y) → is_happy c x y = Some true) ∧
  (∀ max_iterations rs, 1 ≤ max_iterations →
     run_simulation c max_iterations rs = Some (mkRun Converged 1 c rs)).
Proof.
  intros Hwf Hr.
  assert (∀ x y, in_bounds c (x, y) → is_happy c x y = Some true) as Hall.
  { intros x y Hxy. destruct (is_happy_is_Some c (x, y) Hwf Hxy) as [b Hb].
    simpl in Hb. rewrite Hb. f_equal. revert Hb. unfold is_happy.
    destruct (grid_get (grid c) x y) as [[a|]|]; simpl; [|congruence..].
    destruct (get_neighbors c x y) as [ns|]; simpl; [|done].
    destruct (_ =? _)%nat; [congruence|]. intros [= <-].
    apply Qle_bool_iff. apply (Qle_trans _ 0); [exact Hr|apply int_div_nonneg]. }
  split; [done|]. intros max_iterations rs Hmax.
  unfold run_simulation, range. rewrite seqZ_cons by lia. simpl.
  rewrite sweep_spec by done.
  assert (filter (λ p, unhappy_at c p = true) (coords c) = []) as ->; [|done].
  destruct (filter _ _) as [|p ps] eqn:E; [done|]. exfalso.
  assert (p ∈ p :: ps) as Hin by left. rewrite <- E in Hin.
  apply list_elem_of_filter in Hin as [Hu Hp%elem_of_coords].
  unfold unhappy_at in Hu. destruct p as [x y]. cbn [fst snd] in Hu.
  rewrite (Hall x y Hp) in Hu. by destruct (read c (x, y)) as [[?|]|].
Qed.

Lemma nonpositive_rate_converges_witness :
  run_simulation (city_three 0) 3 [5%nat] = Some (mkRun Converged 1 (city_three 0) [5%nat]).
Proof.
  destruct (nonpositive_rate_converges (city_three 0)) as [_ H].
  - literal_shape.
  - discriminate.
  - apply H. lia.
Defined.

Lemma is_happy_agent c x y a ns :
  read c (x, y) = Some (Some a) → get_neighbors c x y = Some ns →
  is_happy c x y =
    Some (if (count occupied ns =? 0)%nat then true
          else Qle_bool (discrimination_rate c)
                 (int_div (count (same_type a) ns) (count occupied ns))).
Proof.
  unfold is_happy, read. cbn [fst snd]. intros -> ->. cbn [mbind option_bind].
  by destruct (_ =? _)%nat.
Qed.

(** X6: with a rate above one, an agent of a city of the right shape is
    happy exactly when none of its neighbour cells is occupied. *)
Theorem is_happy_rate_above_one c x y a :
  well_formed c → (1 < discrimination_rate c)%Q →
  read c (x, y) = Some (Some a) →
  ∃ ns, get_neighbors c x y = Some ns ∧
        is_happy c x y = Some (bool_decide (count occupied ns = 0%nat)).
Proof.
  intros Hwf Hr Ha.
  destruct (neighbors_loop_reads c x y directions Hwf) as (ns & Hns & _).
  exists ns. split; [done|]. rewrite (is_happy_agent c x y a ns Ha Hns).
  destruct (Nat.eqb_spec (count occupied ns) 0) as [E|E].
  - by rewrite bool_decide_eq_true_2.
  - rewrite bool_decide_eq_false_2 by done. f_equal.
    apply not_true_is_false. intros H%Qle_bool_iff.
    assert ((int_div (count (same_type a) ns) (count occupied ns) <= 1)%Q) as H1.
    { apply int_div_le_1; [|done]. apply count_le_mono.
      intros q _. apply same_type_occupied. }
    apply (Qlt_not_le _ _ Hr).
    by apply (Qle_trans _ (int_div (count (same_type a) ns) (count occupied ns))).
Qed.

Lemma is_happy_rate_above_one_witness :
  ∃ ns, get_neighbors (city_three 2) 1 1 = Some ns ∧
        is_happy (city_three 2) 1 1 = Some (bool_decide (count occupied ns = 0%nat)).
Proof.
  apply (is_happy_rate_above_one (city_three 2) 1 1 (mkAgent "R")).
  - literal_shape.
  - reflexivity.
  - reflexivity.
Defined.

(** ** Coordinates outside the grid *)

Lemma np_index_Some n i k :
  np_index n i = Some k ↔
  (0 ≤ i < Z.of_nat n ∧ k = Z.to_nat i) ∨
  (- Z.of_nat n ≤ i < 0 ∧ k = Z.to_nat (i + Z.of_nat n)).
Proof.
  unfold np_index. case_bool_decide as H1.
  - split.
    + intros [= <-]. by left.
    + intros [[_ ->]|[? _]]; [done|lia].
  - case_bool_decide as H2.
    + split.
      * intros [= <-]. by right.
      * intros [[? _]|[_ ->]]; [lia|done].
    + split; [done|]. intros [[? _]|[? _]]; lia.
Qed.

Lemma np_index_None n i :
  np_index n i = None ↔ ¬ (- Z.of_nat n ≤ i < Z.of_nat n).
Proof.
  unfold np_index. repeat case_bool_decide; split; intros Hn; try done; lia.
Qed.

Lemma grid_get_None g h w x y :
  shape g h w →
  grid_get g x y = None ↔ ¬ ((- h ≤ x < h) ∧ (- w ≤ y < w)).
Proof.
  intros [Hl Hr]. unfold grid_get.
  destruct (np_index (length g) x) as [i|] eqn:Hi; simpl.
  - assert (i < length g)%nat as Hlt by (apply np_index_Some in Hi; lia).
    assert (- h ≤ x < h) as Hx by (apply np_index_Some in Hi; lia).
    destruct (lookup_lt_is_Some_2 g i Hlt) as [row Hrow]. rewrite Hrow. simpl.
    pose proof (Forall_lookup_1 _ _ _ _ Hr Hrow) as Hw. simpl in Hw.
    destruct (np_index (length row) y) as [j|] eqn:Hj; simpl.
    + assert (j < length row)%nat as Hlt' by (apply np_index_Some in Hj; lia).
      destruct (lookup_lt_is_Some_2 row j Hlt') as [v Hv]. rewrite Hv.
      apply np_index_Some in Hj. split; [done|]. intros Hn. exfalso. apply Hn. lia.
    + apply np_index_None in Hj. split; [|done]. intros _. lia.
  - apply np_index_None in Hi. split; [|done]. intros _. lia.
Qed.

(** X7: on a city of the right shape [is_happy] raises (an [IndexError])
    exactly for the coordinates that numpy rejects, those with a row
    outside [-height, height) or a column outside [-width, width). *)
Theorem is_happy_raises c x y :
  well_formed c →
  is_happy c x y = None ↔
  ¬ ((- height c ≤ x < height c) ∧ (- width c ≤ y < width c)).
Proof.
  intros Hwf. rewrite <- (grid_get_None (grid c) _ _ x y Hwf).
  unfold is_happy.
  destruct (grid_get (grid c) x y) as [[a|]|]; simpl; [|done..].
  destruct (neighbors_loop_reads c x y directions Hwf) as (ns & Hns & _).
  unfold get_neighbors. rewrite Hns. simpl. by destruct (_ =? _)%nat.
Qed.

Lemma is_happy_raises_witness :
  is_happy city_line 0 4 = None ↔
  ¬ ((- height city_line ≤ 0 < height city_line) ∧
     (- width city_line ≤ 4 < width city_line)).
Proof. apply (is_happy_raises city_line 0 4). literal_shape. Defined.

(** X8: on a city of the right shape with a vacant cell,
    [relocate_agent] raises (an [IndexError]) for the coordinates that
    numpy rejects. *)
Theorem relocate_agent_raises c x y rs :
  well_formed c →
  (∃ q, in_bounds c q ∧ read c q = Some None) →
  ¬ ((- height c ≤ x < height c) ∧ (- width c ≤ y < width c)) →
  relocate_agent c x y rs = None.
Proof.
  intros Hwf (q & Hq & Hqv) Hout.
  apply (grid_get_None (grid c) _ _ x y Hwf) in Hout.
  pose proof (vacant_cells_spec c Hwf) as Hvs.
  assert (q ∈ filter (λ p, read c p = Some None) (coords c)) as Hin.
  { apply list_elem_of_filter. split; [done|]. by apply elem_of_coords. }
  unfold relocate_agent. rewrite Hvs. simpl.
  destruct (filter _ _) as [|v vs]; [by apply not_elem_of_nil in Hin|].
  destruct (random_choice (v :: vs) rs) as [[d rs']|]; simpl; [|done].
  by rewrite Hout.
Qed.

Lemma relocate_agent_raises_witness :
  relocate_agent city_line 1 0 [0%nat] = None.
Proof.
  apply relocate_agent_raises.
  - literal_shape.
  - exists (0, 2). split; [literal_bounds|reflexivity].
  - simpl. lia.
Defined.

(** ** Locality of the happiness rule *)

Lemma Forall2_read_eq c c' (ps : list coord) (ns ns' : list cell) :
  Forall2 (λ q v, read c q = Some v) ps ns →
  Forall2 (λ q v, read c' q = Some v) ps ns' →
  (∀ q, q ∈ ps → read c' q = read c q) →
  ns' = ns.
Proof.
  intros H. revert ns'. induction H as [|q v ps ns Hq _ IH]; intros ns' H' Heq.
  - by inversion H'.
  - inversion H' as [|q' v' ps' ns0 Hq' Hrest]; subst.
    rewrite (Heq q) in Hq' by left. f_equal; [congruence|].
    apply IH; [done|]. intros; apply Heq. by right.
Qed.

(** X9: [is_happy] at [(x, y)] looks only at that cell and at its
    neighbour cells: two cities of the right shape with the same
    dimensions and rate that agree on these cells give the same
    answer. *)
Theorem is_happy_local c c' x y :
  well_formed c → well_formed c' →
  width c' = width c → height c' = height c →
  discrimination_rate c' = discrimination_rate c →
  read c' (x, y) = read c (x, y) →
  (∀ q, q ∈ neighbor_coords c x y → read c' q = read c q) →
  is_happy c' x y = is_happy c x y.
Proof.
  intros Hwf Hwf' Hw Hh Hrate Hxy Hnb.
  destruct (neighbors_loop_reads c x y directions Hwf) as (ns & Hns & Hall).
  destruct (neighbors_loop_reads c' x y directions Hwf') as (ns' & Hns' & Hall').
  assert (filter (in_bounds c') ((λ d, (x + d.1, y + d.2)) <$> directions)
          = neighbor_coords c x y) as E.
  { unfold neighbor_coords. apply list_filter_iff. intros q.
    unfold in_bounds. by rewrite Hw, Hh. }
  rewrite E in Hall'.
  assert (ns' = ns) as -> by (by eapply Forall2_read_eq).
  unfold is_happy, get_neighbors. unfold read in Hxy. cbn [fst snd] in Hxy.
  rewrite Hxy, Hns, Hns', Hrate. done.
Qed.

Lemma well_formed_city_line_far : well_formed city_line_far.
Proof. literal_shape. Qed.

(** [city_line_far] differs from [city_line] in its last cell and in
    its first two rates. *)
Lemma is_happy_local_witness :
  is_happy city_line_far 0 0 = is_happy city_line 0 0.
Proof.
  apply is_happy_local.
  - exact well_formed_city_line.
  - exact well_formed_city_line_far.
  - reflexivity.
  - reflexivity.
  - reflexivity.
  - reflexivity.
  - intros q Hq. vm_compute in Hq.
    apply elem_of_cons in Hq as [-> | Hq]; [reflexivity|].
    by apply not_elem_of_nil in Hq.
Defined.

(** ** The segregation level and the end of a run *)

Lemma count_split {A} (f g h : A → bool) (l : list A) :
  (∀ p, p ∈ l → (b2n (f p) + b2n (g p) = b2n (h p))%nat) →
  (count f l + count g l = count h l)%nat.
Proof.
  induction l as [|a l IH]; intros H; [done|].
  rewrite !count_cons.
  assert (count f l + count g l = count h l)%nat by (apply IH; intros; apply H; by right).
  assert (b2n (f a) + b2n (g a) = b2n (h a))%nat by (apply H; by left).
  lia.
Qed.

(** Every occupied cell is either happy or unhappy. *)
Lemma happy_unhappy_total c :
  well_formed c →
  (happy_count_spec c + count (unhappy_at c) (coords c)
   = total_occupied_spec c)%nat.
Proof.
  intros Hwf. apply count_split. intros p Hp%elem_of_coords.
  unfold happy_at, unhappy_at, holds.
  destruct (read_is_Some c p Hwf Hp) as [v Hv]. rewrite Hv.
  destruct v as [a|]; [|done]. simpl.
  destruct (is_happy_is_Some c p Hwf Hp) as [b Hb]. rewrite Hb. by destruct b.
Qed.

Lemma calculate_segregation_value c :
  well_formed c →
  calculate_segregation c =
    Some (if (0 <? total_occupied_spec c)%nat
          then ratio (happy_count_spec c) (total_occupied_spec c) else 1%Q).
Proof.
  intros Hwf. unfold calculate_segregation.
  rewrite segregation_loop_spec; [|done|by intros p Hp%elem_of_coords]. done.
Qed.

Lemma ratio_one s t : t ≠ 0%nat → (ratio s t == 1)%Q ↔ s = t.
Proof.
  intros Ht. destruct t as [|t]; [done|].
  unfold ratio, Qeq. simpl. rewrite <- Pos.of_nat_succ. lia.
Qed.

Lemma unhappy_agents_nil c :
  well_formed c →
  unhappy_agents c = Some [] ↔ count (unhappy_at c) (coords c) = 0%nat.
Proof.
  intros Hwf. rewrite unhappy_agents_spec by done. unfold count. split.
  - by intros [= ->].
  - intros H%length_zero_iff_nil. by rewrite H.
Qed.

(** X10: in a city of the right shape [calculate_segregation] returns a
    level equal to [1] exactly when the scan of [run_simulation] finds no
    unhappy agent. *)
Theorem segregation_one_iff_no_unhappy c :
  well_formed c →
  ∃ q, calculate_segregation c = Some q ∧
       ((q == 1)%Q ↔ unhappy_agents c = Some []).
Proof.
  intros Hwf. rewrite calculate_segregation_value by done.
  eexists. split; [done|].
  rewrite unhappy_agents_nil by done.
  pose proof (happy_unhappy_total c Hwf) as Hsum.
  destruct (Nat.ltb_spec 0 (total_occupied_spec c)) as [Hpos|Hzero].
  - rewrite ratio_one by lia. lia.
  - split; [lia|done].
Qed.

Lemma segregation_one_iff_no_unhappy_witness :
  ∃ q, calculate_segregation city_split = Some q ∧
       ((q == 1)%Q ↔ unhappy_agents city_split = Some []).
Proof. apply segregation_one_iff_no_unhappy. exact well_formed_city_split. Defined.

Lemma run_simulation_no_unhappy c max_iterations rs :
  unhappy_agents c = Some [] → 1 ≤ max_iterations →
  run_simulation c max_iterations rs = Some (mkRun Converged 1 c rs).
Proof.
  intros Hun Hmax. unfold run_simulation, range. rewrite seqZ_cons by lia.
  simpl. unfold sweep. by rewrite Hun.
Qed.

(** X11: when a run from a city of the right shape ends by [break], the
    segregation level of the city it leaves is [1], and running the
    simulation again on that city, with any budget of at least one pass
    and any random draws, ends in the first pass and changes nothing. *)
Theorem converged_run_is_stable c max_iterations rs r :
  well_formed c →
  run_simulation c max_iterations rs = Some r →
  run_outcome r = Converged →
  (∃ q, calculate_segregation (run_city r) = Some q ∧ (q == 1)%Q) ∧
  (∀ again rs', 1 ≤ again →
     run_simulation (run_city r) again rs'
     = Some (mkRun Converged 1 (run_city r) rs')).
Proof.
  intros Hwf Hrun Hc.
  destruct (simulation_loop_total (range max_iterations) 0 c rs Hwf)
    as (r' & Hr' & Hwf' & _ & _ & _ & Hconv & _).
  unfold run_simulation in Hrun. rewrite Hrun in Hr'. injection Hr' as <-.
  destruct (Hconv Hc) as [Hun _]. split.
  - rewrite calculate_segregation_value by done. eexists. split; [done|].
    pose proof (happy_unhappy_total (run_city r) Hwf') as Hsum.
    apply unhappy_agents_nil in Hun; [|done].
    destruct (Nat.ltb_spec 0 (total_occupied_spec (run_city r))); [|done].
    apply ratio_one; lia.
  - intros again rs' Hagain. by apply run_simulation_no_unhappy.
Qed.

Lemma converged_run_is_stable_witness :
  ∃ q, calculate_segregation city_split = Some q ∧ (q == 1)%Q.
Proof.
  destruct (converged_run_is_stable city_split 3 [] (mkRun Converged 1 city_split []))
    as [H _].
  - exact well_formed_city_split.
  - reflexivity.
  - reflexivity.
  - exact H.
Defined.

(** ** A grid without a vacant cell *)

Lemma relocate_each_full ps c rs :
  vacant_cells c = Some [] → relocate_each ps c rs = Some (c, rs).
Proof.
  intros Hv. induction ps as [|p ps IH]; [done|].
  simpl. rewrite relocate_agent_full by done. simpl. exact IH.
Qed.

Lemma simulation_loop_full iters n c rs :
  vacant_cells c = Some [] →
  is_Some (unhappy_agents c) →
  ∃ r, simulation_loop iters n c rs = Some r ∧
       run_city r = c ∧ run_rng r = rs ∧
       (unhappy_agents c ≠ Some [] →
        run_outcome r = BudgetExhausted ∧
        run_iterations r = (n + length iters)%nat).
Proof.
  intros Hv [ps Hps]. revert n. induction iters as [|i iters IH]; intros n.
  - eexists. split; [done|]. simpl.
    split_and!; try done; try (intros _; split; [done|lia]).
  - simpl. unfold sweep. rewrite Hps. simpl. destruct ps as [|p ps].
    + eexists. split; [done|]. simpl. split_and!; done.
    + rewrite relocate_each_full by done. simpl.
      destruct (IH (S n)) as (r & Hr & Hc & Hrs & Hb).
      exists r. split_and!; try done.
      intros Hne. destruct Hb as [? ->]; [by rewrite Hps|]. split; [done|lia].
Qed.

(** X12: when no cell of a city of the right shape is vacant, a run
    changes nothing at all, neither the city nor the random generator;
    and if an agent is unhappy the loop still makes all its
    [max_iterations] passes. *)
Theorem run_simulation_full_grid c max_iterations rs :
  well_formed c → vacant_cells c = Some [] →
  ∃ r, run_simulation c max_iterations rs = Some r ∧
       run_city r = c ∧ run_rng r = rs ∧
       (unhappy_agents c ≠ Some [] →
        run_outcome r = BudgetExhausted ∧
        run_iterations r = Z.to_nat max_iterations).
Proof.
  intros Hwf Hv.
  destruct (simulation_loop_full (range max_iterations) 0 c rs Hv)
    as (r & Hr & Hc & Hrs & Hb).
  { rewrite unhappy_agents_spec by done. by eexists. }
  exists r. split_and!; try done.
  intros Hne. destruct (Hb Hne) as [? ->]. split; [done|].
  unfold range. by rewrite length_seqZ.
Qed.

Lemma run_simulation_full_grid_witness :
  ∃ r, run_simulation city_full 3 [7%nat] = Some r ∧
       run_city r = city_full ∧ run_rng r = [7%nat] ∧
       run_outcome r = BudgetExhausted ∧ run_iterations r = 3%nat.
Proof.
  destruct (run_simulation_full_grid city_full 3 [7%nat])
    as (r & H1 & H2 & H3 & H4).
  - exact well_formed_city_full.
  - reflexivity.
  - destruct H4 as [H5 H6]; [discriminate|].
    exists r. repeat split; assumption.
Defined.

(** ** Growth of the set of moved agents *)

Lemma unhappy_agents_in_bounds c ps p :
  well_formed c → unhappy_agents c = Some ps → p ∈ ps → in_bounds c p.
Proof. intros Hwf Hps Hp. by apply (elem_of_unhappy_agents c ps p Hwf Hps). Qed.

Lemma simulation_loop_moved iters n c rs r :
  well_formed c → simulation_loop iters n c rs = Some r →
  moved_agents c ⊆ moved_agents (run_city r) ∧
  moved_agents (run_city r) ⊆ moved_agents c ∪ list_to_set (coords c).
Proof.
  revert n c rs. induction iters as [|i iters IH]; intros n c rs Hwf Hr.
  - simpl in Hr. injection Hr as <-. simpl. split; [done|apply union_subseteq_l].
  - simpl in Hr. unfold sweep in Hr.
    pose proof (unhappy_agents_spec c Hwf) as Hun. rewrite Hun in Hr. simpl in Hr.
    destruct (filter (λ p, unhappy_at c p = true) (coords c)) as [|p ps] eqn:E.
    + injection Hr as <-. simpl. split; [done|apply union_subseteq_l].
    + destruct (relocate_each_total (p :: ps) c rs Hwf)
        as (c' & rs' & Hrel & Hwf' & Hcfg & _ & _ & Hmv).
      { intros q Hq. by eapply unhappy_agents_in_bounds. }
      rewrite Hrel in Hr. simpl in Hr.
      destruct (IH _ _ _ Hwf' Hr) as [H1 H2].
      rewrite (same_config_coords c c' Hcfg) in H2.
      assert (list_to_set (p :: ps) ⊆@{gset coord} list_to_set (coords c)) as Hsub.
      { intros q Hq%elem_of_list_to_set. apply elem_of_list_to_set.
        rewrite <- E in Hq. by apply list_elem_of_filter in Hq as [_ ?]. }
      destruct (decide (vacant_cells c = Some [])); rewrite Hmv in H1, H2.
      * done.
      * split.
        -- etrans; [apply union_subseteq_r|exact H1].
        -- intros q Hq. apply H2 in Hq.
           apply elem_of_union in Hq as [Hq|Hq]; [|by apply elem_of_union_r].
           apply elem_of_union in Hq as [Hq|Hq]; [|by apply elem_of_union_l].
           apply elem_of_union_r. by apply Hsub.
Qed.

Lemma moved_agents_size (c : City) (m : gset coord) :
  well_formed c →
  m ⊆ moved_agents c ∪ list_to_set (coords c) →
  Z.of_nat (size m) ≤ Z.of_nat (size (moved_agents c)) + width c * height c.
Proof.
  intros Hwf H2.
  apply subseteq_size in H2. rewrite size_union_alt in H2.
  assert (size (list_to_set (coords c) ∖ moved_agents c : gset coord)
          ≤ length (coords c))%nat as H3.
  { rewrite <- (size_list_to_set (C := gset coord) (coords c)) by apply NoDup_coords.
    apply subseteq_size. intros q Hq%elem_of_difference. tauto. }
  rewrite length_coords in H3. destruct Hwf as [Hh Hw].
  destruct (grid c) as [|row g]; simpl in Hh.
  - rewrite <- Hh in *. simpl in H3. lia.
  - apply Forall_cons in Hw as [Hw _]. nia.
Qed.

(** X13: a run from a city of the right shape never removes an entry from
    [moved_agents], and every entry it adds is a coordinate of the grid;
    so the set grows by at most the number of cells,
    [width * height]. *)
Theorem run_simulation_moved_agents c max_iterations rs r :
  well_formed c →
  run_simulation c max_iterations rs = Some r →
  moved_agents c ⊆ moved_agents (run_city r) ∧
  (∀ p, p ∈ moved_agents (run_city r) → p ∈ moved_agents c ∨ in_bounds c p) ∧
  Z.of_nat (size (moved_agents (run_city r)))
    ≤ Z.of_nat (size (moved_agents c)) + width c * height c.
Proof.
  intros Hwf Hr.
  destruct (simulation_loop_moved _ _ _ _ _ Hwf Hr) as [H1 H2].
  split; [done|]. split.
  - intros p Hp. apply H2 in Hp. apply elem_of_union in Hp as [Hp|Hp]; [by left|].
    right. by apply elem_of_list_to_set, elem_of_coords in Hp.
  - by apply moved_agents_size.
Qed.

Lemma run_simulation_moved_agents_witness :
  ∃ r, run_simulation city_line 2 [0; 1; 0; 0]%nat = Some r ∧
       Z.of_nat (size (moved_agents (run_city r))) ≤ 0 + 4 * 1.
Proof.
  eexists. split; [reflexivity|].
  apply (run_simulation_moved_agents city_line 2 [0; 1; 0; 0]%nat).
  - exact well_formed_city_line.
  - reflexivity.
Defined.

(** ** The constructor, for any rates *)

Lemma initial_agents_long c agents :
  initial_agents c = Some agents →
  (Z.to_nat (total_cells c) ≤ length agents)%nat.
Proof.
  unfold initial_agents, blue_agents, vacant_count, py_repeat.
  destruct (red_agents c) as [red_count|]; [|done].
  destruct (occupied_cells c) as [occupied_count|]; [|done].
  simpl. intros [= <-].
  rewrite !length_app, !length_replicate. lia.
Qed.

Lemma initial_agents_known v c agents :
  initial_agents c = Some agents →
  v ∈ agents → v = None ∨ v = red ∨ v = blue.
Proof.
  unfold initial_agents, py_repeat.
  destruct (red_agents c) as [red_count|]; [|done].
  destruct (blue_agents c) as [blue_count|]; [|done].
  destruct (vacant_count c) as [vacant_cnt|]; [|done].
  simpl. intros [= <-]. rewrite !elem_of_app.
  intros [H|[H|H]]; apply elem_of_replicate in H as [-> _]; auto.
Qed.

(** On a grid of the right shape [initialize_grid] fills every cell with
    an entry of the list it builds, whatever the rates for which the list
    can be built. *)
Lemma initialize_grid_fills c rs agents :
  well_formed c → 0 ≤ width c →
  initial_agents c = Some agents →
  ∃ c' rs',
    initialize_grid c rs = Some (c', rs') ∧
    well_formed c' ∧ same_config c c' ∧ moved_agents c' = moved_agents c ∧
    ∀ p, in_bounds c p → ∃ v, read c' p = Some v ∧ v ∈ agents.
Proof.
  intros Hwf Hw Hinit. unfold initialize_grid. rewrite Hinit.
  cbn [mbind option_bind].
  pose proof (random_shuffle_Permutation agents rs) as Hperm.
  destruct (random_shuffle agents rs) as [shuffled rs'].
  simpl in Hperm.
  assert (length (coords c) ≤ length (reverse shuffled))%nat as Hlen.
  { rewrite length_reverse, Hperm, length_coords.
    etrans; [|by apply initial_agents_long]. unfold total_cells.
    destruct Hwf as [Hh _]. nia. }
  destruct (fill_loop_spec (height c) (width c) (coords c) (grid c) (reverse shuffled))
    as (g' & Hfill & Hs' & _ & Hall); [done|apply NoDup_coords| |done|].
  { intros p Hp. by apply elem_of_coords in Hp. }
  rewrite reverse_involutive in Hfill. rewrite Hfill. simpl.
  eexists _, rs'. split; [done|]. split_and!; try done.
  intros p Hp%elem_of_coords.
  apply list_elem_of_lookup in Hp as [k Hk].
  destruct (Forall2_lookup_l _ _ _ _ _ Hall Hk) as (v & Hv & Hread).
  exists v. split; [done|].
  rewrite <- Hperm, <- (reverse_Permutation shuffled).
  apply lookup_take_Some in Hv as [Hv _]. by eapply list_elem_of_lookup_2.
Qed.

(** The constructor is [initialize_grid] on a grid of vacant cells of the
    right shape, with no moved agent. *)
Lemma City_init_unfold w h occ split rate rs c rs' :
  City_init w h occ split rate rs = Some (c, rs') →
  ∃ g0 agents,
    well_formed (mkCity w h occ split rate g0 ∅) ∧ 0 ≤ w ∧
    initial_agents (mkCity w h occ split rate g0 ∅) = Some agents ∧
    initialize_grid (mkCity w h occ split rate g0 ∅) rs = Some (c, rs').
Proof.
  unfold City_init. intros Hinit.
  destruct (np_full h w) as [g0|] eqn:Hfull; [|done]. simpl in Hinit.
  destruct (initial_agents (mkCity w h occ split rate g0 ∅)) as [agents|] eqn:Hag.
  2: { unfold initialize_grid in Hinit. by rewrite Hag in Hinit. }
  exists g0, agents. split; [by apply np_full_shape|]. split; [|done].
  unfold np_full in Hfull. case_bool_decide; [lia|done].
Qed.

(** X15: a city that the constructor returns has the dimensions and rates
    it was given, a grid of that shape and no moved agent, and each of
    its cells is vacant or holds an agent of type ['R'] or ['B'],
    whatever the rates. *)
Theorem City_init_cells w h occ split rate rs c rs' :
  City_init w h occ split rate rs = Some (c, rs') →
  well_formed c ∧
  width c = w ∧ height c = h ∧
  occupation_percentage c = occ ∧ discr_attr_percentage c = split ∧
  discrimination_rate c = rate ∧
  moved_agents c = ∅ ∧
  ∀ p, in_bounds c p →
       read c p = Some None ∨ read c p = Some red ∨ read c p = Some blue.
Proof.
  intros Hinit.
  destruct (City_init_unfold _ _ _ _ _ _ _ _ Hinit)
    as (g0 & agents & Hwf0 & Hw & Hag & Hi0).
  set (c0 := mkCity w h occ split rate g0 ∅) in *.
  destruct (initialize_grid_fills c0 rs agents)
    as (c' & rs1 & Hi & Hwf & Hcfg & Hmv & Hcells); [done|done|done|].
  rewrite Hi in Hi0. injection Hi0 as -> ->.
  destruct Hcfg as (Ew & Eh & Eo & Es & Er).
  split_and!; try done.
  intros p Hp. destruct (Hcells p) as (v & Hv & Hin).
  { unfold in_bounds in *. by rewrite <- Ew, <- Eh. }
  rewrite Hv. apply (initial_agents_known v c0 agents Hag) in Hin as [-> | [-> | ->]]; auto.
Qed.

Lemma City_init_cells_witness :
  well_formed city_line ∧ moved_agents city_line = ∅.
Proof.
  destruct (City_init_cells 4 1 (1 # 2) (1 # 2) 1 [0; 1; 0]%nat city_line [])
    as (H1 & _ & _ & _ & _ & _ & H7 & _).
  - reflexivity.
  - split; [exact H1|exact H7].
Defined.

(** ** When the constructor raises *)

(** X14: the constructor raises when a dimension is negative (the
    [ValueError] of [np.full]) and when the float product of the number
    of cells and the occupation rate is not finite (the [OverflowError]
    of [int(...)]); it returns normally for non-negative dimensions with
    fewer than [2 ** 53] cells and rates between [0] and [1]. *)
Theorem City_init_raises w h occ split rate rs :
  (w < 0 ∨ h < 0 → City_init w h occ split rate rs = None) ∧
  (int_times_float (w * h) occ = None →
   City_init w h occ split rate rs = None) ∧
  (0 ≤ w → 0 ≤ h → w * h < 2 ^ 53 →
   (0 <= occ <= 1)%Q → (0 <= split <= 1)%Q →
   is_Some (City_init w h occ split rate rs)).
Proof.
  split_and!.
  - intros Hneg. unfold City_init, np_full.
    rewrite bool_decide_eq_false_2 by lia. done.
  - intros Hinf. unfold City_init.
    destruct (np_full h w) as [g0|]; [|done]. simpl.
    unfold initialize_grid, initial_agents, red_agents, occupied_cells,
      total_cells. simpl. by rewrite Hinf.
  - intros Hw Hh Hsize [Ho0 Ho1] [Hs0 Hs1].
    assert (0 ≤ w * h) as Htot by nia.
    destruct (int_product (w * h) occ ltac:(done) ltac:(done)) as [Epo Hbo].
    set (occupied_count := Qfloor (round64 (inject_Z (w * h) * round64 occ))) in *.
    destruct (int_product occupied_count split ltac:(lia) ltac:(done)) as [Epa _].
    unfold City_init, np_full. rewrite bool_decide_eq_true_2 by done. simpl.
    set (c0 := mkCity w h occ split rate _ ∅).
    assert (well_formed c0) as Hwf0.
    { split; simpl; [rewrite length_replicate; lia|].
      apply Forall_replicate. rewrite length_replicate. lia. }
    assert (occupied_cells c0 = Some occupied_count) as Eo by exact Epo.
    assert (red_agents c0
            = Some (Qfloor (round64 (inject_Z occupied_count * round64 split))))
      as Ea.
    { unfold red_agents. rewrite Eo. exact Epa. }
    assert (is_Some (initial_agents c0)) as [agents Hag].
    { unfold initial_agents, blue_agents, vacant_count.
      rewrite Ea, Eo. by eexists. }
    destruct (initialize_grid_fills c0 rs agents Hwf0 Hw Hag) as (c & rs' & -> & _).
    by eexists.
Qed.

(** A negative width; two hundred cells at the occupation rate
    [1e307] times ten. *)
Lemma City_init_raises_witness :
  City_init (-1) 3 1 1 1 [] = None ∧
  City_init 20 10 (float_literal (inject_Z (10 ^ 307))) 1 1 [] = None.
Proof.
  destruct (City_init_raises (-1) 3 1 1 1 []) as (H1 & _ & _).
  destruct (City_init_raises 20 10 (float_literal (inject_Z (10 ^ 307))) 1 1 [])
    as (_ & H2 & _).
  split.
  - apply H1. left. lia.
  - apply H2. vm_compute. reflexivity.
Defined.

(** ** The numeric grid of [visualize] *)

Lemma cell_color_spec v :
  cell_color v =
    if unknown_type v then None
    else Some (match v with
               | None => 0
               | Some a => if bool_decide (type a = "R") then 1 else 2
               end).
Proof.
  destruct v as [[t]|]; [|done]. unfold cell_color, color_map, unknown_type. simpl.
  rewrite lookup_insert. case_decide as H1.
  - injection H1 as <-. by rewrite bool_decide_eq_true_2.
  - rewrite bool_decide_eq_false_2 by congruence.
    rewrite lookup_insert. case_decide as H2.
    + injection H2 as <-. by rewrite bool_decide_eq_true_2.
    + rewrite bool_decide_eq_false_2 by congruence. simpl.
      by rewrite lookup_singleton_ne.
Qed.

Lemma count_zero {A} (f : A → bool) (l : list A) :
  count f l = 0%nat ↔ ∀ p, p ∈ l → f p = false.
Proof.
  induction l as [|a l IH]; [by split; [intros _ p Hp%not_elem_of_nil|]|].
  rewrite count_cons. split.
  - intros H p Hp. apply elem_of_cons in Hp as [->|Hp].
    + destruct (f a); [simpl in H; lia|done].
    + apply IH; [|done]. destruct (f a); simpl in H; lia.
  - intros H. rewrite (H a) by left. simpl. apply IH. intros p Hp. apply H. by right.
Qed.

Lemma numeric_row_None c i :
  well_formed c → 0 ≤ i < height c →
  mapM (λ j, v ← grid_get (grid c) i j; cell_color v) (range (width c)) = None ↔
  ∃ j, 0 ≤ j < width c ∧ holds unknown_type c (i, j) = true.
Proof.
  intros Hwf Hi. rewrite mapM_None, Exists_exists. unfold range. split.
  - intros (j & Hj%elem_of_seqZ & Hnone). exists j. split; [lia|].
    destruct (grid_get_is_Some (grid c) _ _ i j Hwf) as [v Hv]; [done|lia|].
    unfold holds, read. simpl. rewrite Hv in *. simpl in Hnone.
    rewrite cell_color_spec in Hnone. by destruct (unknown_type v).
  - intros (j & Hj & Hu). exists j. split; [apply elem_of_seqZ; lia|].
    unfold holds, read in Hu. simpl in Hu.
    destruct (grid_get (grid c) i j) as [v|]; [|done]. simpl.
    rewrite cell_color_spec. by rewrite Hu.
Qed.

Lemma grid_numeric_None c :
  well_formed c →
  grid_numeric c = None ↔ ∃ p, in_bounds c p ∧ holds unknown_type c p = true.
Proof.
  intros Hwf. unfold grid_numeric. rewrite mapM_None, Exists_exists.
  unfold range at 1. split.
  - intros (i & Hi%elem_of_seqZ & Hnone).
    apply numeric_row_None in Hnone as (j & Hj & Hu); [|done|lia].
    exists (i, j). split; [split; simpl; lia|done].
  - intros ([i j] & [Hi Hj] & Hu). simpl in Hi, Hj. exists i.
    split; [apply elem_of_seqZ; lia|].
    apply numeric_row_None; [done..|]. by exists j.
Qed.

(** X16: on a city of the right shape the numeric grid of [visualize] can
    be built unless a cell holds an agent whose type is neither ['R'] nor
    ['B'] (a [KeyError]); when it is built it has one row per row of the
    grid and one entry per cell: [0] for a vacant cell, [1] for a red
    agent, [2] for a blue one. *)
Theorem grid_numeric_spec c :
  well_formed c →
  (grid_numeric c = None ↔
   ∃ p, in_bounds c p ∧ holds unknown_type c p = true) ∧
  (∀ m, grid_numeric c = Some m →
     Z.of_nat (length m) = height c ∧
     Forall (λ row, Z.of_nat (length row) = width c) m ∧
     ∀ p, in_bounds c p →
       ∃ row v,
         m !! Z.to_nat p.1 = Some row ∧ read c p = Some v ∧
         row !! Z.to_nat p.2 =
           Some (match v with
                 | None => 0
                 | Some a => if bool_decide (type a = "R") then 1 else 2
                 end)).
Proof.
  intros Hwf. split; [by apply grid_numeric_None|].
  intros m Hm. unfold grid_numeric in Hm. apply mapM_Some in Hm.
  pose proof (Forall2_length _ _ _ Hm) as Hlen. unfold range in Hlen at 1.
  rewrite length_seqZ in Hlen. destruct Hwf as [Hh Hw].
  split; [lia|]. split.
  - apply Forall_forall. intros row Hrow.
    apply list_elem_of_lookup in Hrow as [k Hk].
    destruct (Forall2_lookup_r _ _ _ _ _ Hm Hk) as (i & _ & Hrow).
    apply mapM_Some, Forall2_length in Hrow. unfold range in Hrow.
    rewrite length_seqZ in Hrow.
    assert (0 ≤ width c ∨ length (grid c) = 0%nat) as [?|E];
      [|lia|].
    + destruct (grid c) as [|r g]; [by right|]. left.
      apply Forall_cons in Hw as [Hw _]. lia.
    + apply lookup_lt_Some in Hk. lia.
  - intros p [Hp1 Hp2].
    assert (range (height c) !! Z.to_nat p.1 = Some p.1) as Hi.
    { unfold range. rewrite lookup_seqZ_lt by lia. f_equal. lia. }
    destruct (Forall2_lookup_l _ _ _ _ _ Hm Hi) as (row & Hrow & Hrowm).
    apply mapM_Some in Hrowm.
    assert (range (width c) !! Z.to_nat p.2 = Some p.2) as Hj.
    { unfold range. rewrite lookup_seqZ_lt by lia. f_equal. lia. }
    destruct (Forall2_lookup_l _ _ _ _ _ Hrowm Hj) as (k & Hk & Hcell).
    destruct (grid_get (grid c) p.1 p.2) as [v|] eqn:Hv; [|done]. simpl in Hcell.
    exists row, v. split; [done|]. split; [done|].
    rewrite cell_color_spec in Hcell. destruct (unknown_type v); [done|].
    by rewrite Hk, <- Hcell.
Qed.

Lemma grid_numeric_spec_witness :
  grid_numeric city_line = Some [[1; 2; 0; 0]] ∧
  (grid_numeric city_line = None ↔
   ∃ p, in_bounds city_line p ∧ holds unknown_type city_line p = true).
Proof.
  split; [reflexivity|].
  apply (grid_numeric_spec city_line). exact well_formed_city_line.
Defined.

Lemma no_unknown_type c :
  well_formed c →
  count_cells unknown_type c = 0%nat ↔
  ∀ p, in_bounds c p →
       read c p = Some None ∨ ∃ a, read c p = Some (Some a) ∧
                                   (type a = "R" ∨ type a = "B").
Proof.
  intros Hwf. unfold count_cells. rewrite count_zero. split.
  - intros H p Hp. specialize (H p (proj2 (elem_of_coords c p) Hp)).
    destruct (read_is_Some c p Hwf Hp) as [[a|] Hv]; [|by left]. right.
    exists a. split; [done|]. unfold holds in H. rewrite Hv in H. simpl in H.
    apply negb_false_iff, orb_true_iff in H as [H|H];
      apply bool_decide_eq_true in H; auto.
  - intros H p Hp%elem_of_coords. unfold holds.
    destruct (H p Hp) as [->|(a & -> & Ha)]; [done|]. simpl.
    apply negb_false_iff, orb_true_iff.
    destruct Ha as [Ha|Ha]; [left|right]; by apply bool_decide_eq_true.
Qed.

Lemma grid_numeric_is_Some c :
  well_formed c → count_cells unknown_type c = 0%nat →
  is_Some (grid_numeric c).
Proof.
  intros Hwf H1. apply not_eq_None_Some. intros Hnone.
  apply grid_numeric_None in Hnone as (p & Hp & Hu); [|done].
  unfold count_cells in H1. rewrite count_zero in H1.
  rewrite (H1 p) in Hu; [done|]. by apply elem_of_coords.
Qed.

(** What the constructor returns, whatever the rates. *)
Lemma initialize_grid_known c rs c' rs' :
  well_formed c → 0 ≤ width c →
  initialize_grid c rs = Some (c', rs') →
  well_formed c' ∧ same_config c c' ∧ moved_agents c' = moved_agents c ∧
  count_cells unknown_type c' = 0%nat.
Proof.
  intros Hwf Hw Hinit.
  destruct (initial_agents c) as [agents|] eqn:Hag.
  2: { unfold initialize_grid in Hinit. by rewrite Hag in Hinit. }
  destruct (initialize_grid_fills c rs agents Hwf Hw Hag)
    as (c1 & rs1 & Hi & Hwf1 & Hcfg & Hmv & Hcells).
  rewrite Hi in Hinit. injection Hinit as -> ->.
  split_and!; try done.
  apply no_unknown_type; [done|]. intros p Hp.
  destruct (Hcells p) as (v & Hv & Hin).
  { by apply (same_config_in_bounds c c'). }
  rewrite Hv. apply (initial_agents_known v c agents Hag) in Hin as [-> | [-> | ->]];
    [by left|right; eexists; split; [done|]; simpl; auto..].
Qed.

(** X17: for a city that the constructor returns and for the city that
    any run leaves from it, the numeric grid of [visualize] can be built:
    plotting the initial state and the state after any number of passes
    never meets an unknown agent type. *)
Theorem grid_numeric_after_run w h occ split rate rs c rs' max_iterations rs2 :
  City_init w h occ split rate rs = Some (c, rs') →
  is_Some (grid_numeric c) ∧
  ∃ r, run_simulation c max_iterations rs2 = Some r ∧
       is_Some (grid_numeric (run_city r)).
Proof.
  intros Hinit.
  destruct (City_init_unfold _ _ _ _ _ _ _ _ Hinit)
    as (g0 & agents & Hwf0 & Hw & _ & Hi0).
  destruct (initialize_grid_known _ _ _ _ Hwf0 Hw Hi0) as (Hwf & _ & _ & Hzero).
  split; [by apply grid_numeric_is_Some|].
  destruct (simulation_loop_total (range max_iterations) 0 c rs2 Hwf)
    as (r & Hr & Hwfr & _ & Hcnt & _).
  exists r. split; [done|]. apply grid_numeric_is_Some; [done|]. by rewrite Hcnt.
Qed.

Lemma grid_numeric_after_run_witness :
  is_Some (grid_numeric city_line) ∧
  ∃ r, run_simulation city_line 2 [0; 1; 0; 0]%nat = Some r ∧
       is_Some (grid_numeric (run_city r)).
Proof.
  apply (grid_numeric_after_run 4 1 (1 # 2) (1 # 2) 1 [0; 1; 0]%nat city_line []).
  reflexivity.
Defined.

(** ** Random parameters *)

Lemma randint_spec a b rs :
  a ≤ b → ∃ v, randint a b rs = Some (v, tl rs) ∧ a ≤ v ≤ b.
Proof.
  intros Hab. unfold randint. rewrite bool_decide_eq_true_2 by done.
  eexists. split; [done|].
  pose proof (Z.mod_pos_bound (Z.of_nat (hd 0%nat rs)) (b - a + 1)). lia.
Qed.

Lemma random_random_bounds rs :
  (0 <= (random_random rs).1)%Q ∧ ((random_random rs).1 < 1)%Q.
Proof.
  unfold random_random, Qle, Qlt. simpl.
  pose proof (Z.mod_pos_bound (Z.of_nat (hd 0%nat rs)) 9007199254740992). lia.
Qed.

(** [random.uniform(a, b)] for floats with a non-negative float
    difference: between the float [a] and the float sum of [a] and the
    difference. *)
Lemma uniform_spec a b rs :
  (0 <= round64 (round64 b - round64 a))%Q →
  ∃ x, uniform a b rs = (x, tl rs) ∧
       (round64 (round64 a) <= x)%Q ∧
       (x <= round64 (round64 a + round64 (round64 (round64 b - round64 a))))%Q.
Proof.
  intros Hd. unfold uniform.
  pose proof (random_random_bounds rs) as [H0 H1].
  destruct (random_random rs) as [u rs'] eqn:E.
  assert (rs' = tl rs) as -> by (unfold random_random in E; congruence).
  simpl in H0, H1. set (d := round64 (round64 b - round64 a)) in *.
  assert (0 <= round64 (d * u))%Q by (apply round64_nonneg; nra).
  assert (round64 (d * u) <= round64 d)%Q by (apply round64_mono; nra).
  eexists. split; [done|]. split; apply round64_mono; lra.
Qed.

(** [round(x, 2)] is the float of a decimal with two places, and it is
    monotone. *)
Lemma round2_range lo hi a b x :
  (a <= x)%Q → (x <= b)%Q →
  lo ≤ round_half_even (round64 a * 100) →
  round_half_even (round64 b * 100) ≤ hi →
  ∃ k, lo ≤ k ≤ hi ∧ round2 x = float_literal (k # 100) ∧
       (float_literal (lo # 100) <= round2 x)%Q ∧
       (round2 x <= float_literal (hi # 100))%Q.
Proof.
  intros Ha Hb Hlo Hhi.
  apply round64_mono in Ha, Hb.
  assert (round_half_even (round64 a * 100) ≤ round_half_even (round64 x * 100))
    as H1.
  { apply round_half_even_mono. lra. }
  assert (round_half_even (round64 x * 100) ≤ round_half_even (round64 b * 100))
    as H2.
  { apply round_half_even_mono. lra. }
  exists (round_half_even (round64 x * 100)). split; [lia|]. split; [done|].
  unfold round2, float_literal.
  split; apply round64_mono; unfold Qle; simpl; lia.
Qed.

(** X18: [generate_random_parameters] never raises; it consumes five
    draws and returns a dictionary with exactly the five keys of a
    configuration: integer dimensions between 10 and 50 and three rates,
    each the float of a decimal with two places: an occupation rate
    between the floats 0.5 and 1.0, a proportion of red agents between
    the floats 0.3 and 0.7 and a discrimination rate between the floats
    0.2 and 0.8. *)
Theorem generate_random_parameters_ranges rs :
  ∃ w h occ split rate,
    generate_random_parameters rs =
      Some ({[ "width" := PyInt w;
               "height" := PyInt h;
               "occupation_percentage" := PyFloat occ;
               "discr_attr_percentage" := PyFloat split;
               "discrimination_rate" := PyFloat rate ]},
            drop 5 rs) ∧
    10 ≤ w ≤ 50 ∧ 10 ≤ h ≤ 50 ∧
    (∃ k, 50 ≤ k ≤ 100 ∧ occ = float_literal (k # 100)) ∧
    (∃ k, 30 ≤ k ≤ 70 ∧ split = float_literal (k # 100)) ∧
    (∃ k, 20 ≤ k ≤ 80 ∧ rate = float_literal (k # 100)) ∧
    (float_literal (5 # 10) <= occ <= float_literal 1)%Q ∧
    (float_literal (3 # 10) <= split <= float_literal (7 # 10))%Q ∧
    (float_literal (2 # 10) <= rate <= float_literal (8 # 10))%Q.
Proof.
  unfold generate_random_parameters.
  destruct (randint_spec 10 50 rs) as (w & -> & Hw); [lia|].
  cbn [mbind option_bind].
  destruct (randint_spec 10 50 (tl rs)) as (h & -> & Hh); [lia|].
  cbn [mbind option_bind].
  destruct (uniform_spec (5 # 10) 1 (tl (tl rs)))
    as (occ & -> & Ho1 & Ho2); [vm_compute; discriminate|].
  destruct (uniform_spec (3 # 10) (7 # 10) (tl (tl (tl rs))))
    as (split & -> & Hs1 & Hs2); [vm_compute; discriminate|].
  destruct (uniform_spec (2 # 10) (8 # 10) (tl (tl (tl (tl rs)))))
    as (rate & -> & Hr1 & Hr2); [vm_compute; discriminate|].
  destruct (round2_range 50 100 _ _ occ Ho1 Ho2)
    as (ko & Hko & Eo & Ho3 & Ho4); [vm_compute; discriminate..|].
  destruct (round2_range 30 70 _ _ split Hs1 Hs2)
    as (ks & Hks & Es & Hs3 & Hs4); [vm_compute; discriminate..|].
  destruct (round2_range 20 80 _ _ rate Hr1 Hr2)
    as (kr & Hkr & Er & Hr3 & Hr4); [vm_compute; discriminate..|].
  exists w, h, (round2 occ), (round2 split), (round2 rate).
  split.
  { do 2 f_equal. by destruct rs as [|? [|? [|? [|? [|? ?]]]]]. }
  split; [done|]. split; [done|].
  split; [by exists ko|]. split; [by exists ks|]. split; [by exists kr|].
  assert (∀ p q : Q, (p == q)%Q → (float_literal p <= float_literal q)%Q) as Hlit.
  { intros p q E. apply round64_mono. rewrite E. apply Qle_refl. }
  split; [|split].
  - split.
    + apply (Qle_trans _ (float_literal (50 # 100))); [by apply Hlit|done].
    + apply (Qle_trans _ (float_literal (100 # 100))); [done|by apply Hlit].
  - split.
    + apply (Qle_trans _ (float_literal (30 # 100))); [by apply Hlit|done].
    + apply (Qle_trans _ (float_literal (70 # 100))); [done|by apply Hlit].
  - split.
    + apply (Qle_trans _ (float_literal (20 # 100))); [by apply Hlit|done].
    + apply (Qle_trans _ (float_literal (80 # 100))); [done|by apply Hlit].
Qed.

(** ** The figures of the report *)

Lemma calculate_segregation_bounds c :
  well_formed c →
  ∃ q, calculate_segregation c = Some q ∧ (0 <= q <= 1)%Q.
Proof.
  intros Hwf. rewrite calculate_segregation_value by done.
  eexists. split; [done|].
  destruct (Nat.ltb_spec 0 (total_occupied_spec c)).
  - apply ratio_bounds; [apply happy_count_le_total|lia].
  - split; discriminate.
Qed.

(** X20: for a city that the constructor returns, the three figures that
    [main] reports are computed without an exception by the calls it
    makes: [calculate_segregation] before the run, [run_simulation], and
    [calculate_segregation] after it.  The two segregation levels lie
    between [0] and [1], and [len(city.moved_agents)] is at most the
    number of cells, [width * height]. *)
Theorem report_figures w h occ split rate rs c rs' max_iterations :
  City_init w h occ split rate rs = Some (c, rs') →
  ∃ initial r final,
    calculate_segregation c = Some initial ∧
    run_simulation c max_iterations rs' = Some r ∧
    calculate_segregation (run_city r) = Some final ∧
    (0 <= initial <= 1)%Q ∧
    (0 <= final <= 1)%Q ∧
    Z.of_nat (size (moved_agents (run_city r))) ≤ w * h.
Proof.
  intros Hinit.
  destruct (City_init_unfold _ _ _ _ _ _ _ _ Hinit)
    as (g0 & agents & Hwf0 & Hw & _ & Hi0).
  destruct (initialize_grid_known _ _ _ _ Hwf0 Hw Hi0)
    as (Hwf & (Ew & Eh & _) & Hmv & _).
  simpl in Ew, Eh, Hmv.
  destruct (calculate_segregation_bounds c Hwf) as (q0 & Hq0 & Hb0).
  destruct (simulation_loop_total (range max_iterations) 0 c rs' Hwf)
    as (r & Hr & Hwfr & _ & _).
  destruct (calculate_segregation_bounds (run_city r) Hwfr) as (q1 & Hq1 & Hb1).
  exists q0, r, q1. split; [done|]. split; [done|]. split; [done|].
  split; [done|]. split; [done|].
  destruct (simulation_loop_moved _ _ _ _ _ Hwf Hr) as [_ H2].
  pose proof (moved_agents_size c _ Hwf H2) as Hsize.
  rewrite Hmv, size_empty, Ew, Eh in Hsize. lia.
Qed.

(** [city_line], as the constructor returns it, and a run of two
    passes. *)
Lemma report_figures_witness :
  ∃ initial r final,
    calculate_segregation city_line = Some initial ∧
    run_simulation city_line 2 [] = Some r ∧
    calculate_segregation (run_city r) = Some final ∧
    (0 <= initial <= 1)%Q ∧
    (0 <= final <= 1)%Q ∧
    Z.of_nat (size (moved_agents (run_city r))) ≤ 4 * 1.
Proof.
  apply (report_figures 4 1 (1 # 2) (1 # 2) 1 [0; 1; 0]%nat city_line [] 2).
  reflexivity.
Defined.

(** ** Reading the parameters from a file *)

Lemma length_split sep s : length (split sep s) = S (count_char sep s).
Proof.
  induction s as [|a s IH]; [done|]. simpl.
  destruct (Ascii.eqb a sep); simpl; [by rewrite IH|].
  destruct (split sep s) as [|p ps]; [done|]. simpl in *. done.
Qed.

Lemma rstrip_blank s : blank s = true → rstrip s = EmptyString.
Proof.
  induction s as [|a s IH]; [done|]. simpl.
  intros [Ha Hs]%andb_prop. by rewrite (IH Hs), Ha.
Qed.

Lemma strip_blank s : blank s = true → strip s = EmptyString.
Proof. intros H. unfold strip. by rewrite (rstrip_blank s H). Qed.

Section read_parameters_facts.

Variable int_of_string : string → option Z.
Variable float_of_string : string → option Q.

Local Abbreviation read_line := (read_line int_of_string float_of_string).
Local Abbreviation read_lines := (read_lines int_of_string float_of_string).

Lemma read_line_Some params line params' :
  read_line params line = Some params' ↔
  ∃ key value n,
    split ":"%char (strip line) = [key; value] ∧
    line_value int_of_string float_of_string value = Some n ∧
    params' = <[strip key := n]> params.
Proof.
  unfold read_line, line_value. split.
  - destruct (split ":"%char (strip line)) as [|key [|value [|? ?]]]; try done.
    destruct (if contains "."%char (strip value) then _ else _) as [n|] eqn:E;
      [|done].
    simpl. intros [= <-]. by exists key, value, n.
  - intros (key & value & n & -> & -> & ->). done.
Qed.

Lemma read_line_colons params line :
  count_char ":"%char (strip line) ≠ 1%nat → read_line params line = None.
Proof.
  intros Hc. unfold read_line.
  pose proof (length_split ":"%char (strip line)) as Hl.
  destruct (split ":"%char (strip line)) as [|key [|value [|? ?]]]; try done.
  simpl in Hl. lia.
Qed.

Lemma read_lines_None params lines line :
  line ∈ lines → (∀ acc, read_line acc line = None) →
  read_lines params lines = None.
Proof.
  intros Hin Hline. revert params.
  induction lines as [|l lines IH]; intros params.
  - by apply not_elem_of_nil in Hin.
  - simpl. apply elem_of_cons in Hin as [<-|Hin].
    + by rewrite Hline.
    + destruct (read_line params l); [|done]. simpl. by apply IH.
Qed.

Lemma read_lines_dom lines : ∀ acc params,
  read_lines acc lines = Some params →
  (∀ k, k ∈ dom params ↔
        k ∈ dom acc ∨
        ∃ line key value,
          line ∈ lines ∧ split ":"%char (strip line) = [key; value] ∧
          k = strip key) ∧
  (size params ≤ size acc + length lines)%nat.
Proof.
  induction lines as [|l lines IH]; intros acc params Hread.
  - simpl in Hread. injection Hread as <-. split; [|lia].
    intros k. split; [by left|]. intros [?|(line & _ & _ & Hin & _)]; [done|].
    by apply not_elem_of_nil in Hin.
  - simpl in Hread.
    destruct (read_line acc l) as [acc'|] eqn:Hl; [|done]. simpl in Hread.
    apply read_line_Some in Hl as (key & value & n & Hsplit & _ & ->).
    destruct (IH _ _ Hread) as [Hdom Hsize]. split.
    + intros k. rewrite Hdom, dom_insert, elem_of_union, elem_of_singleton.
      split.
      * intros [[->|?]|(line & key' & value' & Hin & Hs & ->)]; [|by left|].
        -- right. exists l, key, value. split; [by left|done].
        -- right. exists line, key', value'. split; [by right|done].
      * intros [?|(line & key' & value' & Hin & Hs & ->)]; [by left; right|].
        apply elem_of_cons in Hin as [->|Hin].
        -- left. left. congruence.
        -- right. by exists line, key', value'.
    + etrans; [exact Hsize|]. simpl.
      pose proof (map_size_insert (strip key) n acc) as Hi.
      destruct (acc !! strip key); unfold id in Hi; lia.
Qed.

(** X21: reading fails (a [ValueError]) as soon as one line of the file,
    once stripped, does not hold exactly one colon; in particular when
    a line is empty or made of whitespace only, or when the file cannot
    be opened. *)
Theorem read_parameters_malformed lines line :
  line ∈ lines →
  count_char ":"%char (strip line) ≠ 1%nat ∨ blank line = true →
  read_parameters_from_file int_of_string float_of_string (Some lines) = None ∧
  read_parameters_from_file int_of_string float_of_string None = None.
Proof.
  intros Hin Hbad. split; [|done]. simpl.
  apply (read_lines_None _ _ line Hin). intros acc.
  apply read_line_colons. destruct Hbad as [Hc|Hb]; [done|].
  by rewrite (strip_blank line Hb).
Qed.

(** X22: when reading succeeds, the keys of the dictionary are exactly
    the stripped texts before the colon of the lines, and the
    dictionary has at most one entry per line. *)
Theorem read_parameters_keys lines params :
  read_parameters_from_file int_of_string float_of_string (Some lines)
    = Some params →
  (∀ k, k ∈ dom params ↔
        ∃ line key value,
          line ∈ lines ∧ split ":"%char (strip line) = [key; value] ∧
          k = strip key) ∧
  (size params ≤ length lines)%nat.
Proof.
  simpl. intros Hread. destruct (read_lines_dom _ _ _ Hread) as [Hdom Hsize].
  split.
  - intros k. rewrite Hdom, dom_empty, elem_of_empty. tauto.
  - by rewrite map_size_empty in Hsize.
Qed.

End read_parameters_facts.

Lemma read_parameters_malformed_witness :
  read_parameters_from_file (λ _, Some 20) (λ _, Some 1%Q)
    (Some file_with_empty_line) = None.
Proof.
  apply (read_parameters_malformed (λ _, Some 20) (λ _, Some 1%Q)
           file_with_empty_line (String "010"%char EmptyString)).
  - right. left.
  - right. reflexivity.
Defined.

Lemma read_parameters_keys_witness :
  (size ({[ "width" := PyInt 20 ]} : gmap string number) ≤ 1)%nat ∧
  ∀ k, k ∈ dom ({[ "width" := PyInt 20 ]} : gmap string number) ↔
       ∃ line key value,
         line ∈ [String.append "width: 20" (String "010"%char EmptyString)] ∧
         split ":"%char (strip line) = [key; value] ∧ k = strip key.
Proof.
  destruct (read_parameters_keys (λ _, Some 20) (λ _, Some 1%Q)
              [String.append "width: 20" (String "010"%char EmptyString)]
              {[ "width" := PyInt 20 ]}) as [H1 H2].
  - reflexivity.
  - split; [exact H2|exact H1].
Defined.
